(** * Table plans: circular seating over a sequence of meals

    A shallow embedding of [Table_Plans.py]: the [Person] class, the rotation
    check [are_arrangements_same], the backtracking search
    [_find_arrangement_backtrack] and the planner [seat_people], followed by
    the properties of the seating core.

    Conventions of the embedding.
    - A Python exception is a [Raise] in the monad [res].
    - A [Person] object has no [__eq__] or [__hash__], so Python compares and
      hashes it by identity; the field [pid] stands for [id(p)].
    - The set of remaining people is listed in its iteration order; how
      [set(...)] and [s - {p}] order their result is left to the
      implementation [PySet].
    - The dictionary of plans is a [gmap], the set of seated neighbour pairs
      a [gset]; the lines printed by [seat_people] are kept as a list of
      [report]s.
    - The recursion of the search is driven by a fuel argument; [seat_people]
      gives it one more than the number of people to seat, which is always
      enough ([search_returns]). The interpreter's own recursion limit is
      not modelled: the search recurses once for each person it seats, and
      a run of the program on a meal of about a thousand attendees ends in
      a [RecursionError] that the embedding does not have. What is proved
      of a result [Ok] is about the runs that stay below that limit. *)

From Stdlib Require Import ZArith String.
From stdpp Require Import base numbers option list sets gmap strings sorting.

Local Open Scope Z_scope.
Local Open Scope nat_scope.

(** ** Exceptions *)

Inductive exn : Type :=
  | ValueError
  | IndexError
  | OutOfFuel.

Inductive res (A : Type) : Type :=
  | Ok (a : A)
  | Raise (e : exn).
Arguments Ok {A} a.
Arguments Raise {A} e.

#[global] Instance res_ret : MRet res := λ A a, Ok a.
#[global] Instance res_bind : MBind res := λ A B f m,
  match m with
  | Ok a => f a
  | Raise e => Raise e
  end.

(** ** Constants for scoring *)

Definition BONUS_PREFERRED : Z := -1000.
Definition PENALTY_RELATION : Z := 100.
Definition PENALTY_SEX_VIOLATION : Z := 50.

(** ** The class [Person] *)

Record Person : Type := mkPerson {
  pid : nat;
  name : string;
  sex : string;
  relations : list string;
  preferred : list string;
  meals : list string
}.

#[global] Instance Person_eq_dec : EqDecision Person.
Proof. solve_decision. Defined.

(** [Person.__init__]; [addr] is the identity of the object being built. *)
Definition Person_init (addr : nat) (name sex : string)
    (relations preferred meals : list string) : res Person :=
  if bool_decide (sex ∈ ["male"%string; "female"%string]) then
    Ok (mkPerson addr name sex relations preferred meals)
  else Raise ValueError.

Definition is_related_to (self other_person : Person) : bool :=
  bool_decide (name other_person ∈ relations self).

Definition prefers (self other_person : Person) : bool :=
  bool_decide (name other_person ∈ preferred self).

(** The pair of two names with the smaller name first, as built before every
    lookup in, and every addition to, the set of seated neighbour pairs. *)
Definition canonical_pair (name1 name2 : string) : string * string :=
  if String.ltb name1 name2 then (name1, name2) else (name2, name1).

Definition pair_of (p1 p2 : Person) : string * string :=
  canonical_pair (name p1) (name p2).

Definition same_sex (p1 p2 : Person) : bool :=
  bool_decide (sex p1 = sex p2).

(** ** Rotation check *)

Definition possible_starts (first_person : Person) (arr2 : list Person)
    : list nat :=
  (filter (λ ip, name ip.2 = name first_person)
          (imap (λ i p, (i, p)) arr2)).*1.

(** The inner loop of [are_arrangements_same] for one [start_idx]; an index
    out of range would raise, which the function turns into [False]. *)
Definition is_a_match (arr1 arr2 : list Person) (n1 start_idx : nat) : bool :=
  forallb (λ i,
      match arr1 !! i, arr2 !! ((start_idx + i) mod n1) with
      | Some person_from_arr1, Some person_from_arr2 =>
          bool_decide (name person_from_arr1 = name person_from_arr2)
      | _, _ => false
      end)
    (seq 0 n1).

Definition are_arrangements_same (arr1 arr2 : list Person) : bool :=
  let n1 := length arr1 in
  let n2 := length arr2 in
  if negb (n1 =? n2) then false
  else if n1 =? 0 then true
  else
    match arr1 with
    | [] => false
    | first_person_arr1 :: _ =>
        let possible_starts_in_arr2 := possible_starts first_person_arr1 arr2 in
        match possible_starts_in_arr2 with
        | [] => false
        | _ => existsb (is_a_match arr1 arr2 n1) possible_starts_in_arr2
        end
    end.

(** ** Sets of people

    [set(attendees)] keeps one entry per object and [s - {p}] drops the
    object [p]; the order in which the resulting set is iterated is not
    fixed by the language. A set is represented by the list of its elements
    in iteration order. *)

Fixpoint dedup_pid (l : list Person) : list Person :=
  match l with
  | [] => []
  | p :: l' => p :: filter (λ q, pid q ≠ pid p) (dedup_pid l')
  end.

Class PySet : Type := {
  set_of_list : list Person → list Person;
  set_discard : list Person → Person → list Person;
  set_of_list_perm l : set_of_list l ≡ₚ dedup_pid l;
  set_discard_perm s p : set_discard s p ≡ₚ filter (λ q, pid q ≠ pid p) s
}.

(** Two implementations: one iterates in insertion order, the other in the
    reverse order. *)
Definition insertion_order : PySet :=
  Build_PySet
    (λ l, dedup_pid l)
    (λ s p, filter (λ q, pid q ≠ pid p) s)
    (λ l, Permutation_refl _)
    (λ s p, Permutation_refl _).

Definition reverse_order : PySet :=
  Build_PySet
    (λ l, reverse (dedup_pid l))
    (λ s p, filter (λ q, pid q ≠ pid p) s)
    (λ l, reverse_Permutation _)
    (λ s p, Permutation_refl _).

(** ** The backtracking search *)

Definition candidate : Type := Z * Person * bool.

Definition _get_candidate_score (c : candidate) : Z := c.1.1.

(** [list.sort(key=_get_candidate_score)]: ascending and stable. *)
Fixpoint insert_by_score (c : candidate) (l : list candidate) : list candidate :=
  match l with
  | [] => [c]
  | d :: l' =>
      if bool_decide (_get_candidate_score c ≤ _get_candidate_score d)%Z
      then c :: l
      else d :: insert_by_score c l'
  end.

Definition sort_by_score (l : list candidate) : list candidate :=
  foldr insert_by_score [] l.

Abbreviation ledger := (gset (string * string)).

(** The body of the loop over [remaining_people]: the entry appended to
    [possible_next_people] for [person_to_try], if any. *)
Definition try_person (seated_neighbour_pairs_overall : ledger)
    (sex_violation_already_used_up : bool)
    (person_seated_last : option Person) (person_to_try : Person)
    : option candidate :=
  match person_seated_last with
  | None => Some (0%Z, person_to_try, false)
  | Some last_p =>
      let current_pair := pair_of last_p person_to_try in
      let is_not_allowed :=
        bool_decide (current_pair ∈ seated_neighbour_pairs_overall) in
      let '(is_not_allowed, will_cause_sex_violation_now, current_score) :=
        if negb is_not_allowed && same_sex last_p person_to_try then
          if sex_violation_already_used_up then (true, false, 0%Z)
          else (is_not_allowed, true, PENALTY_SEX_VIOLATION)
        else (is_not_allowed, false, 0%Z) in
      if negb is_not_allowed then
        let current_score :=
          if is_related_to last_p person_to_try
             || is_related_to person_to_try last_p
          then (current_score + PENALTY_RELATION)%Z else current_score in
        let current_score :=
          if prefers last_p person_to_try || prefers person_to_try last_p
          then (current_score + BONUS_PREFERRED)%Z else current_score in
        Some (current_score, person_to_try, will_cause_sex_violation_now)
      else None
  end.

Definition possible_next_people (seated_neighbour_pairs_overall : ledger)
    (sex_violation_already_used_up : bool)
    (person_seated_last : option Person) (remaining_people : list Person)
    : list candidate :=
  omap (try_person seated_neighbour_pairs_overall
          sex_violation_already_used_up person_seated_last)
       remaining_people.

(** The base case: every person is placed. *)
Definition complete_arrangement (current_arrangement : list Person)
    (arrangements_already_found_for_this_meal : list (list Person))
    (seated_neighbour_pairs_overall : ledger)
    (sex_violation_already_used_up : bool) : res (option (list Person)) :=
  match head current_arrangement, last current_arrangement with
  | Some first_person, Some last_person =>
      let final_pair := pair_of last_person first_person in
      if bool_decide (final_pair ∈ seated_neighbour_pairs_overall) then Ok None
      else if same_sex last_person first_person
              && sex_violation_already_used_up then Ok None
      else if existsb (are_arrangements_same current_arrangement)
                arrangements_already_found_for_this_meal then Ok None
      else Ok (Some current_arrangement)
  | _, _ => Raise IndexError
  end.

(** The loop over the sorted candidates; [if found_plan:] holds for a
    non-empty list only. *)
Fixpoint try_candidates (recurse : candidate → res (option (list Person)))
    (candidates : list candidate) : res (option (list Person)) :=
  match candidates with
  | [] => Ok None
  | c :: rest =>
      found_plan ← recurse c;
      match found_plan with
      | Some ((_ :: _) as plan) => Ok (Some plan)
      | _ => try_candidates recurse rest
      end
  end.

Fixpoint _find_arrangement_backtrack `{PySet} (fuel : nat)
    (current_arrangement remaining_people : list Person)
    (total_people_to_seat : nat)
    (arrangements_already_found_for_this_meal : list (list Person))
    (seated_neighbour_pairs_overall : ledger)
    (sex_violation_already_used_up : bool) : res (option (list Person)) :=
  match fuel with
  | 0 => Raise OutOfFuel
  | S fuel' =>
      let num_people_placed := length current_arrangement in
      if bool_decide (num_people_placed = total_people_to_seat) then
        complete_arrangement current_arrangement
          arrangements_already_found_for_this_meal
          seated_neighbour_pairs_overall sex_violation_already_used_up
      else
        let person_seated_last := last current_arrangement in
        let possible :=
          sort_by_score
            (possible_next_people seated_neighbour_pairs_overall
               sex_violation_already_used_up person_seated_last
               remaining_people) in
        try_candidates
          (λ '(score, person_added, creates_violation_this_step),
             let remaining_after_this_add :=
               set_discard remaining_people person_added in
             let new_sex_violation_status :=
               sex_violation_already_used_up || creates_violation_this_step in
             _find_arrangement_backtrack fuel'
               (current_arrangement ++ [person_added])
               remaining_after_this_add total_people_to_seat
               arrangements_already_found_for_this_meal
               seated_neighbour_pairs_overall new_sex_violation_status)
          possible
  end.

(** ** The planner *)

Inductive outcome : Type :=
  | NoOneAttending
  | OnlyOnePerson
  | FoundPlan
  | NoPlanFound.

#[global] Instance outcome_eq_dec : EqDecision outcome.
Proof. solve_decision. Defined.

(** What [seat_people] prints for one meal: its name, the number of people
    attending, and how the attempt ended. *)
Record report : Type := mkReport {
  report_meal : string;
  report_attendees : nat;
  report_outcome : outcome
}.

Record planner : Type := mkPlanner {
  final_seating_arrangements : gmap string (list (list Person));
  all_seated_neighbour_pairs_globally : ledger;
  printed : list report
}.

Definition planner_start : planner := mkPlanner ∅ ∅ [].

Definition attendees_of (all_people_info : list Person) (meal_name : string)
    : list Person :=
  filter (λ p, meal_name ∈ meals p) all_people_info.

(** The loop [for i in range(n)] that adds the neighbour pairs of an
    accepted plan. *)
Fixpoint add_neighbour_pairs (arr : list Person) (n : nat)
    (indices : list nat) (pairs : ledger) : res ledger :=
  match indices with
  | [] => Ok pairs
  | i :: rest =>
      match arr !! i, arr !! ((i + 1) mod n) with
      | Some p1, Some p2 =>
          add_neighbour_pairs arr n rest ({[pair_of p1 p2]} ∪ pairs)
      | _, _ => Raise IndexError
      end
  end.

(** The search as [seat_people] calls it for one meal. *)
Definition search_for_meal `{PySet} (all_people_info : list Person)
    (st : planner) (meal_name : string) : res (option (list Person)) :=
  let attendees_this_meal := attendees_of all_people_info meal_name in
  let num_attendees_for_this_meal := length attendees_this_meal in
  _find_arrangement_backtrack (S num_attendees_for_this_meal)
    [] (set_of_list attendees_this_meal) num_attendees_for_this_meal
    (default [] (final_seating_arrangements st !! meal_name))
    (all_seated_neighbour_pairs_globally st) false.

(** One turn of the loop over [meal_names_list]. *)
Definition seat_meal `{PySet} (all_people_info : list Person)
    (st : planner) (meal_name : string) : res planner :=
  let attendees_this_meal := attendees_of all_people_info meal_name in
  let num_attendees_for_this_meal := length attendees_this_meal in
  let say o := printed st ++ [mkReport meal_name num_attendees_for_this_meal o] in
  if bool_decide (num_attendees_for_this_meal = 0) then
    Ok (mkPlanner (<[meal_name := []]> (final_seating_arrangements st))
          (all_seated_neighbour_pairs_globally st) (say NoOneAttending))
  else if bool_decide (num_attendees_for_this_meal = 1) then
    Ok (mkPlanner
          (<[meal_name := [attendees_this_meal]]> (final_seating_arrangements st))
          (all_seated_neighbour_pairs_globally st) (say OnlyOnePerson))
  else
    current_best_arrangement ← search_for_meal all_people_info st meal_name;
    match current_best_arrangement with
    | Some ((_ :: _) as arr) =>
        let before := default [] (final_seating_arrangements st !! meal_name) in
        pairs ← add_neighbour_pairs arr num_attendees_for_this_meal
                  (seq 0 num_attendees_for_this_meal)
                  (all_seated_neighbour_pairs_globally st);
        Ok (mkPlanner
              (<[meal_name := before ++ [arr]]> (final_seating_arrangements st))
              pairs (say FoundPlan))
    | _ =>
        Ok (mkPlanner
              (match final_seating_arrangements st !! meal_name with
               | None => <[meal_name := []]> (final_seating_arrangements st)
               | Some _ => final_seating_arrangements st
               end)
              (all_seated_neighbour_pairs_globally st) (say NoPlanFound))
    end.

Fixpoint seat_meals `{PySet} (all_people_info : list Person)
    (meal_names_list : list string) (st : planner) : res planner :=
  match meal_names_list with
  | [] => Ok st
  | meal_name :: rest =>
      st' ← seat_meal all_people_info st meal_name;
      seat_meals all_people_info rest st'
  end.

(** [seat_people], with the set of neighbour pairs and the printed lines
    kept next to the returned dictionary. *)
Definition seat_people_run `{PySet} (all_people_info : list Person)
    (meal_names_list : list string) : res planner :=
  seat_meals all_people_info meal_names_list planner_start.

Definition seat_people `{PySet} (all_people_info : list Person)
    (meal_names_list : list string) : res (gmap string (list (list Person))) :=
  st ← seat_people_run all_people_info meal_names_list;
  Ok (final_seating_arrangements st).

(** ** Notions used to state the properties *)

(** The pairs of people at consecutive seats of a row. *)
Fixpoint links (l : list Person) : list (Person * Person) :=
  match l with
  | [] => []
  | a :: t => match t with
              | [] => []
              | b :: _ => (a, b) :: links t
              end
  end.

(** The neighbours at seat [i] of a round table: [arr[i]] and
    [arr[(i + 1) % n]], as the planner reads them. *)
Definition neighbour_at (arr : list Person) (i : nat) : option (Person * Person) :=
  p1 ← arr !! i;
  p2 ← arr !! ((i + 1) mod length arr);
  Some (p1, p2).

Definition neighbours (arr : list Person) : list (Person * Person) :=
  omap (neighbour_at arr) (seq 0 (length arr)).

Definition same_sex_pair (ab : Person * Person) : bool := same_sex ab.1 ab.2.

Definition same_sex_count (pairs : list (Person * Person)) : nat :=
  length (filter (λ ab, same_sex_pair ab = true) pairs).

Definition pair_names (ab : Person * Person) : string * string :=
  pair_of ab.1 ab.2.

(** One placement of the search: a candidate that survived the hard rules is
    appended and leaves the set of remaining people. *)
Definition search_state : Type := list Person * list Person * bool.

Inductive search_step `{PySet} (pairs : ledger) : relation search_state :=
  | search_step_place current remaining used score p v :
      (score, p, v) ∈ possible_next_people pairs used (last current) remaining →
      search_step pairs (current, remaining, used)
        (current ++ [p], set_discard remaining p, used || v).

(** The planner accepts [arr] for [meal_name] in state [st]: the meal has at
    least two people and the search returns the non-empty plan [arr]. *)
Definition accepts `{PySet} (all_people_info : list Person) (st : planner)
    (meal_name : string) (arr : list Person) : Prop :=
  2 ≤ length (attendees_of all_people_info meal_name) ∧ arr ≠ [] ∧
  search_for_meal all_people_info st meal_name = Ok (Some arr).

(** [arr] is accepted for [meal_name] somewhere in the run over
    [meal_names_list], the planner being in state [st] at that moment. *)
Definition accepted_in_run `{PySet} (all_people_info : list Person)
    (meal_names_list : list string) (st : planner) (meal_name : string)
    (arr : list Person) : Prop :=
  ∃ before after,
    meal_names_list = before ++ meal_name :: after ∧
    seat_people_run all_people_info before = Ok st ∧
    accepts all_people_info st meal_name arr.

(** What an accepted plan for [n] people adds to the set of neighbour pairs
    when names are unique: the two seats of a table for two share one pair. *)
Definition pairs_added (n : nat) : nat := if bool_decide (n = 2) then 1 else n.

Definition ledger_gain (r : report) : nat :=
  match report_outcome r with
  | FoundPlan => pairs_added (report_attendees r)
  | _ => 0
  end.

Definition attendees_of_accepted (r : report) : nat :=
  match report_outcome r with
  | FoundPlan => report_attendees r
  | _ => 0
  end.

(** What the placements of one search preserve: no seated link repeats a
    recorded pair, the same-sex links fit the budget, and the people seated
    and the people remaining are together the people of [base]. *)
Definition search_inv (pairs : ledger) (base : list Person)
    (s : search_state) : Prop :=
  Forall (λ ab, pair_names ab ∉ pairs) (links s.1.1) ∧
  same_sex_count (links s.1.1) ≤ Nat.b2n s.2 ∧
  s.1.1 ++ s.1.2 ≡ₚ base.

(** What a plan returned by the search for [people] satisfies, [pairs] being
    the set of seated neighbour pairs given to the search. *)
Record sound_plan (pairs : ledger) (people : list Person)
    (arr : list Person) : Prop := {
  sound_length : length arr = length people;
  sound_people : ∀ p, p ∈ arr → p ∈ people;
  sound_distinct : NoDup (pid <$> arr);
  sound_fresh : Forall (λ ab, pair_names ab ∉ pairs) (neighbours arr);
  sound_budget : same_sex_count (neighbours arr) ≤ 1
}.

(** Two set implementations that build and iterate every set alike. *)
Definition same_order (S1 S2 : PySet) : Prop :=
  (∀ l, @set_of_list S1 l = @set_of_list S2 l) ∧
  (∀ s p, @set_discard S1 s p = @set_discard S2 s p).

Definition score_le (c d : candidate) : Prop :=
  (_get_candidate_score c ≤ _get_candidate_score d)%Z.

(** ** People and meals used in the examples *)

Definition alice : Person :=
  mkPerson 1 "Alice" "female" [] [] ["Lunch"%string; "Dinner"%string].
Definition bob : Person :=
  mkPerson 2 "Bob" "male" [] [] ["Lunch"%string; "Supper"%string].
Definition carol : Person :=
  mkPerson 3 "Carol" "female" [] [] ["Brunch"%string; "Tea"%string].
Definition dave : Person :=
  mkPerson 4 "Dave" "male" [] [] ["Dinner"%string; "Brunch"%string; "Supper"%string].
Definition erin : Person :=
  mkPerson 5 "Erin" "female" [] [] ["Brunch"%string; "Tea"%string].
Definition grace : Person :=
  mkPerson 6 "Grace" "female" [] [] ["Tea"%string; "Alone"%string].

Definition guests : list Person := [alice; bob; carol; dave; erin; grace].

Definition hana : Person :=
  mkPerson 7 "Hana" "female" ["Jack"%string] ["Ivan"%string] ["Feast"%string].
Definition ivan : Person :=
  mkPerson 8 "Ivan" "male" [] [] ["Feast"%string].
Definition jack : Person :=
  mkPerson 9 "Jack" "male" [] [] ["Feast"%string].
Definition kim : Person :=
  mkPerson 10 "Kim" "female" [] [] ["Dawn"%string; "Dusk"%string].

(** The planner after [Lunch] was planned for [alice] and [bob]. *)
Definition after_lunch : planner :=
  mkPlanner {[ "Lunch"%string := [[alice; bob]] ]}
    {[ ("Alice"%string, "Bob"%string) ]}
    [mkReport "Lunch" 2 FoundPlan].

(** A seating that obeys the hard rules of the search: no pair of
    neighbours is recorded in [pairs], at most one pair of neighbours has
    one sex, and the table is no rotation of a plan in [prev]. *)
Definition valid_plan (pairs : ledger) (prev : list (list Person))
    (arr : list Person) : Prop :=
  Forall (λ ab, pair_names ab ∉ pairs) (neighbours arr) ∧
  same_sex_count (neighbours arr) ≤ 1 ∧
  existsb (are_arrangements_same arr) prev = false.

(** The person without the soft data: relations and preferences. *)
Definition forget_soft (p : Person) : Person :=
  mkPerson (pid p) (name p) (sex p) [] [] (meals p).

(** ** The list view of [visualize_seating]

    What [visualize_seating] prints is kept as a list of [shown] items. The
    dictionary is given by its items in iteration order. The text grid of
    [draw_text_table] is not expanded: the call is the item [VisualLayout]. *)

Record seat_line : Type := mkSeatLine {
  seat_index : nat;
  person_A : Person;
  is_preferred_pair : bool;
  is_repeated_neighbour_from_another_meal : bool;
  is_relation_pair : bool;
  is_same_sex_pair : bool;
  indicator_symbols : string;
  next_index : nat;
  person_B : Person
}.

Inductive shown : Type :=
  | Banner
  | NoPlansMade
  | MealTitle (meal_name : string)
  | NoArrangementFound
  | ListViewTitle
  | SeatLine (l : seat_line)
  | LegendNote (P N R : bool) (S : option nat)
  | VisualLayoutTitle
  | VisualLayout (arr : list Person).

(** The body of the loop [for i in range(num_people_in_arrangement)] for
    the neighbours [ab] at seat [i]. *)
Definition list_view_line (n : nat) (pairs_shown_in_list_view : ledger)
    (i : nat) (ab : Person * Person) : seat_line :=
  let pair_as_key := pair_of ab.1 ab.2 in
  let is_relation := is_related_to ab.1 ab.2 || is_related_to ab.2 ab.1 in
  let is_preferred := prefers ab.1 ab.2 || prefers ab.2 ab.1 in
  let is_repeated := bool_decide (pair_as_key ∈ pairs_shown_in_list_view) in
  let is_same_sex := same_sex ab.1 ab.2 in
  mkSeatLine i ab.1 is_preferred is_repeated is_relation is_same_sex
    ((if is_preferred then " (P*)" else "")
     +:+ (if is_repeated then " (N!)" else "")
     +:+ (if is_relation then " (R!)" else "")
     +:+ (if is_same_sex then " (S!)" else ""))
    ((i + 1) mod n) ab.2.

(** Whether the line of seat [i] adds one to
    [num_same_sex_violations_in_this_plan]. *)
Definition counted_in_note (n : nat) (l : seat_line) : bool :=
  is_same_sex_pair l
  && (bool_decide (seat_index l < (seat_index l + 1) mod n)
      || bool_decide (n = 2)).

Definition list_view (pairs_shown_in_list_view : ledger)
    (current_arrangement_to_show : list Person) : list seat_line :=
  imap (list_view_line (length current_arrangement_to_show)
          pairs_shown_in_list_view)
       (neighbours current_arrangement_to_show).

Definition num_same_sex_violations_in_this_plan (n : nat)
    (lines : list seat_line) : nat :=
  length (filter (λ l, counted_in_note n l = true) lines).

Definition legend_note (n : nat) (lines : list seat_line) : list shown :=
  let P := existsb is_preferred_pair lines in
  let N := existsb is_repeated_neighbour_from_another_meal lines in
  let R := existsb is_relation_pair lines in
  let S := existsb is_same_sex_pair lines in
  if P || N || R || S then
    [LegendNote P N R
       (if S then Some (num_same_sex_violations_in_this_plan n lines)
        else None)]
  else [].

(** One turn of the loop over the items of the dictionary. *)
Definition show_meal (pairs_shown_in_list_view : ledger)
    (item : string * list (list Person)) : list shown * ledger :=
  match last item.2 with
  | None => ([MealTitle item.1; NoArrangementFound], pairs_shown_in_list_view)
  | Some current_arrangement_to_show =>
      let n := length current_arrangement_to_show in
      if bool_decide (n = 0) then ([MealTitle item.1], pairs_shown_in_list_view)
      else
        let lines := list_view pairs_shown_in_list_view
                       current_arrangement_to_show in
        ([MealTitle item.1; ListViewTitle] ++ (SeatLine <$> lines)
           ++ legend_note n lines
           ++ [VisualLayoutTitle; VisualLayout current_arrangement_to_show],
         pairs_shown_in_list_view
           ∪ list_to_set (pair_names <$> neighbours current_arrangement_to_show))
  end.

Fixpoint show_meals (pairs_shown_in_list_view : ledger)
    (items : list (string * list (list Person))) : list shown :=
  match items with
  | [] => []
  | item :: rest =>
      let '(out, pairs) := show_meal pairs_shown_in_list_view item in
      out ++ show_meals pairs rest
  end.

Definition visualize_seating
    (all_meal_arrangements : list (string * list (list Person))) : list shown :=
  let any_plans_made :=
    existsb (λ item, match item.2 with [] => false | _ => true end)
      all_meal_arrangements in
  if any_plans_made then Banner :: show_meals ∅ all_meal_arrangements
  else [Banner; NoPlansMade].

#[global] Instance seat_line_eq_dec : EqDecision seat_line.
Proof. solve_decision. Defined.

#[global] Instance shown_eq_dec : EqDecision shown.
Proof. solve_decision. Defined.

(** The shown people are alone at their table. *)
Definition dines_alone (l : seat_line) : Prop := next_index l = seat_index l.

(** * Properties *)

(** ** The monad *)

Lemma bind_Ok {A B} (f : A → res B) (m : res A) (b : B) :
  m ≫= f = Ok b → ∃ a, m = Ok a ∧ f a = Ok b.
Proof. destruct m as [a|e]; simpl; [eauto | discriminate]. Qed.

(** ** Canonical pairs *)

Lemma canonical_pair_comm (a b : string) :
  canonical_pair a b = canonical_pair b a.
Proof.
  unfold canonical_pair, String.ltb.
  rewrite (String.compare_antisym a b).
  destruct (String.compare b a) eqn:E; simpl; try reflexivity.
  apply String.compare_eq_iff in E. by subst.
Qed.

Lemma canonical_pair_cases (a b : string) :
  canonical_pair a b = (a, b) ∨ canonical_pair a b = (b, a).
Proof. unfold canonical_pair. destruct (String.ltb a b); auto. Qed.

Lemma canonical_pair_inj (a b c d : string) :
  canonical_pair a b = canonical_pair c d →
  (a = c ∧ b = d) ∨ (a = d ∧ b = c).
Proof.
  destruct (canonical_pair_cases a b) as [-> | ->],
    (canonical_pair_cases c d) as [-> | ->]; intros [= -> ->]; auto.
Qed.

Lemma pair_of_comm (p q : Person) : pair_of p q = pair_of q p.
Proof. apply canonical_pair_comm. Qed.

(** ** Rotation check *)

Lemma possible_starts_spec (first_person : Person) (arr2 : list Person) (s : nat) :
  s ∈ possible_starts first_person arr2 ↔
  ∃ p, arr2 !! s = Some p ∧ name p = name first_person.
Proof.
  unfold possible_starts. rewrite list_elem_of_fmap. split.
  - intros ([i p] & -> & Hin).
    apply list_elem_of_filter in Hin. destruct Hin as [Hn Hin].
    apply elem_of_lookup_imap in Hin as (j & q & [= -> ->] & Hq). eauto.
  - intros (p & Hp & Hn). exists (s, p). split; [done|].
    apply list_elem_of_filter. split; [done|].
    apply elem_of_lookup_imap. eauto.
Qed.

Lemma is_a_match_spec (arr1 arr2 : list Person) (n s : nat) :
  is_a_match arr1 arr2 n s = true ↔
  ∀ i, i < n → ∃ a b, arr1 !! i = Some a ∧
                      arr2 !! ((s + i) mod n) = Some b ∧ name a = name b.
Proof.
  unfold is_a_match. rewrite forallb_forall. split.
  - intros H i Hi. specialize (H i). rewrite in_seq in H.
    specialize (H ltac:(lia)).
    destruct (arr1 !! i) as [a|]; [|done].
    destruct (arr2 !! _) as [b|]; [|done].
    apply bool_decide_eq_true in H. eauto.
  - intros H i Hi. apply in_seq in Hi. destruct (H i) as (a & b & -> & -> & E); [lia|].
    by apply bool_decide_eq_true_2.
Qed.

Lemma are_arrangements_same_spec (arr1 arr2 : list Person) :
  are_arrangements_same arr1 arr2 = true ↔
  length arr1 = length arr2 ∧
  (arr1 = [] ∨
   ∃ s, s < length arr2 ∧
        ∀ i, i < length arr1 →
             ∃ a b, arr1 !! i = Some a ∧
                    arr2 !! ((s + i) mod length arr1) = Some b ∧
                    name a = name b).
Proof.
  unfold are_arrangements_same.
  destruct (Nat.eqb_spec (length arr1) (length arr2)) as [Hlen|Hlen]; simpl;
    [|split; [discriminate | tauto]].
  destruct (Nat.eqb_spec (length arr1) 0) as [H0|H0].
  { apply length_zero_iff_nil in H0. tauto. }
  destruct arr1 as [|p arr1]; [done|].
  set (n := length (p :: arr1)) in *.
  assert (existsb (is_a_match (p :: arr1) arr2 n) (possible_starts p arr2) = true ↔
          ∃ s, s < length arr2 ∧
               ∀ i, i < n → ∃ a b, (p :: arr1) !! i = Some a ∧
                    arr2 !! ((s + i) mod n) = Some b ∧ name a = name b) as Hex.
  { rewrite existsb_exists. split.
    - intros (s & Hs & Hm). apply list_elem_of_In, possible_starts_spec in Hs as (q & Hq & _).
      apply lookup_lt_Some in Hq.
      pose proof (proj1 (is_a_match_spec _ _ _ _) Hm). eauto.
    - intros (s & Hs & Hm). exists s.
      split; [|by apply (proj2 (is_a_match_spec _ _ _ _))].
      apply list_elem_of_In, possible_starts_spec.
      destruct (Hm 0) as (a & b & Ha & Hb & E); [lia|].
      rewrite Nat.add_0_r, Nat.mod_small in Hb by lia.
      simpl in Ha. injection Ha as <-. eauto. }
  destruct (possible_starts p arr2) eqn:Hps.
  - simpl in Hex. split; [discriminate|]. intros [_ [?|H]]; [done|]. by apply Hex.
  - rewrite Hex. split; [auto|]. intros [_ [?|H]]; done.
Qed.

Lemma lookup_rotate_mod {A} (l : list A) (k i : nat) :
  i < length l → rotate k l !! i = l !! ((k + i) mod length l).
Proof.
  intros Hi. rewrite lookup_rotate_r by done. f_equal.
  unfold rotate_nat_add.
  rewrite <- Nat2Z.inj_add, <- Nat2Z.inj_mod. apply Nat2Z.id.
Qed.

Lemma rotate_back (n k i : nat) :
  0 < n → i < n → (k + ((n - k mod n) mod n + i) mod n) mod n = i.
Proof.
  intros Hn Hi. pose proof (Nat.mod_upper_bound k n ltac:(lia)).
  rewrite Nat.Div0.add_mod_idemp_r, Nat.add_assoc.
  rewrite <- Nat.Div0.add_mod_idemp_l, Nat.Div0.add_mod_idemp_r.
  rewrite <- (Nat.Div0.add_mod_idemp_l k).
  replace (k mod n + (n - k mod n)) with n by lia.
  rewrite Nat.Div0.mod_same. simpl. by apply Nat.mod_small.
Qed.

Lemma are_arrangements_same_rotate_r (arr : list Person) (k : nat) :
  are_arrangements_same arr (rotate k arr) = true.
Proof.
  apply are_arrangements_same_spec. rewrite length_rotate. split; [done|].
  destruct arr as [|p arr]; [by left | right].
  set (l := p :: arr). set (n := length l).
  assert (0 < n) as Hn by (unfold n; simpl; lia).
  exists ((n - k mod n) mod n). split; [by apply Nat.mod_upper_bound; lia|].
  intros i Hi. destruct (lookup_lt_is_Some_2 l i Hi) as [a Ha].
  exists a, a. split; [done|]. split; [|done].
  rewrite lookup_rotate_mod by (apply Nat.mod_upper_bound; lia).
  rewrite <- Ha. f_equal. fold n. by apply rotate_back.
Qed.

Lemma are_arrangements_same_rotate_l (arr : list Person) (k : nat) :
  are_arrangements_same (rotate k arr) arr = true.
Proof.
  apply are_arrangements_same_spec. rewrite length_rotate. split; [done|].
  destruct arr as [|p arr].
  { left. unfold rotate. by rewrite drop_nil, take_nil. }
  right. set (l := p :: arr). set (n := length l).
  assert (0 < n) as Hn by (unfold n; simpl; lia).
  exists (k mod n). split; [by apply Nat.mod_upper_bound; lia|].
  intros i Hi. rewrite lookup_rotate_mod by done. fold n.
  rewrite Nat.Div0.add_mod_idemp_l.
  destruct (lookup_lt_is_Some_2 l ((k + i) mod n)) as [a Ha];
    [by apply Nat.mod_upper_bound; lia|].
  exists a, a. done.
Qed.

Lemma are_arrangements_same_names (arr1 arr2 : list Person) :
  are_arrangements_same arr1 arr2 = true →
  ∀ x, x ∈ name <$> arr1 ↔ x ∈ name <$> arr2.
Proof.
  intros (Hlen & H)%are_arrangements_same_spec.
  destruct H as [-> | (s & Hs & H)].
  { symmetry in Hlen. apply length_zero_iff_nil in Hlen. by subst. }
  set (n := length arr1) in *.
  assert (0 < n) as Hn by lia.
  intros x. rewrite !list_elem_of_fmap. split.
  - intros (a & -> & Ha). apply list_elem_of_lookup in Ha as [i Hi].
    destruct (H i) as (a' & b & Ha' & Hb & E); [by eapply lookup_lt_Some|].
    assert (a' = a) as -> by congruence.
    exists b. split; [done|]. apply list_elem_of_lookup. eauto.
  - intros (b & -> & Hb). apply list_elem_of_lookup in Hb as [j Hj].
    assert (j < n) as Hjn by (rewrite Hlen; by eapply lookup_lt_Some).
    destruct (H ((j + (n - s)) mod n)) as (a & b' & Ha & Hb' & E);
      [by apply Nat.mod_upper_bound; lia|].
    rewrite Nat.Div0.add_mod_idemp_r in Hb'.
    replace (s + (j + (n - s))) with (j + 1 * n) in Hb' by lia.
    rewrite Nat.Div0.mod_add, Nat.mod_small in Hb' by lia.
    assert (b' = b) as -> by congruence.
    exists a. split; [done|]. apply list_elem_of_lookup. eauto.
Qed.

(** ** Sorting the candidates *)

Lemma insert_by_score_perm (c : candidate) (l : list candidate) :
  insert_by_score c l ≡ₚ c :: l.
Proof.
  induction l as [|d l IH]; simpl; [done|].
  case_bool_decide; [done|]. rewrite IH. apply Permutation_swap.
Qed.

Lemma sort_by_score_perm (l : list candidate) : sort_by_score l ≡ₚ l.
Proof.
  induction l as [|c l IH]; simpl; [done|].
  by rewrite insert_by_score_perm, IH.
Qed.

(** ** The hard rules on one candidate *)

Lemma try_person_Some (pairs : ledger) (used : bool) (lst : option Person)
    (p : Person) (c : candidate) :
  try_person pairs used lst p = Some c →
  ∃ score v, c = (score, p, v) ∧
    match lst with
    | None => v = false
    | Some q =>
        (pair_of q p ∉ pairs) ∧
        (if same_sex q p then used = false ∧ v = true else v = false)
    end.
Proof.
  unfold try_person. destruct lst as [q|]; [|intros [= <-]; eauto].
  case_bool_decide as Hin; simpl.
  { intros [=]. }
  destruct (same_sex q p); simpl; [destruct used; simpl|];
    intros [= <-]; eauto 10.
Qed.

Lemma possible_next_people_elem (pairs : ledger) (used : bool)
    (lst : option Person) (remaining : list Person) (c : candidate) :
  c ∈ possible_next_people pairs used lst remaining →
  ∃ score v, c = (score, c.1.2, v) ∧ c.1.2 ∈ remaining ∧
    match lst with
    | None => v = false
    | Some q =>
        (pair_of q c.1.2 ∉ pairs) ∧
        (if same_sex q c.1.2 then used = false ∧ v = true else v = false)
    end.
Proof.
  unfold possible_next_people. intros (p & Hp & Hc)%list_elem_of_omap.
  apply try_person_Some in Hc as (score & v & -> & H). simpl. eauto 10.
Qed.

(** ** The search: it returns, and what it returns was built by placements *)

Lemma try_candidates_Ok (f : candidate → res (option (list Person)))
    (cands : list candidate) :
  (∀ c, c ∈ cands → ∃ r, f c = Ok r) →
  ∃ r, try_candidates f cands = Ok r.
Proof.
  induction cands as [|c cands IH]; intros Hf; simpl; [eauto|].
  destruct (Hf c) as [r ->]; [by left|]. simpl.
  destruct r as [[|]|]; eauto; apply IH; intros; apply Hf; by right.
Qed.

Lemma try_candidates_found (f : candidate → res (option (list Person)))
    (cands : list candidate) (arr : list Person) :
  try_candidates f cands = Ok (Some arr) →
  ∃ c, c ∈ cands ∧ f c = Ok (Some arr).
Proof.
  induction cands as [|c cands IH]; simpl; [discriminate|].
  destruct (f c) as [r|e] eqn:Hc; simpl; [|discriminate].
  destruct r as [[|x l]|].
  - intros (d & ? & ?)%IH. exists d. split; [by right | done].
  - intros [= <-]. exists c. split; [by left | done].
  - intros (d & ? & ?)%IH. exists d. split; [by right | done].
Qed.

Lemma complete_arrangement_found (current : list Person)
    (prev : list (list Person)) (pairs : ledger) (used : bool)
    (arr : list Person) :
  complete_arrangement current prev pairs used = Ok (Some arr) →
  arr = current ∧
  ∃ first_person last_person,
    head current = Some first_person ∧ last current = Some last_person ∧
    (pair_of last_person first_person ∉ pairs) ∧
    (same_sex last_person first_person = true → used = false) ∧
    existsb (are_arrangements_same current) prev = false.
Proof.
  unfold complete_arrangement.
  destruct (head current) as [f|]; [|discriminate].
  destruct (last current) as [l|]; [|discriminate].
  case_bool_decide; [discriminate|].
  destruct (same_sex l f) eqn:Hs, used; simpl; try discriminate;
    destruct (existsb _ prev) eqn:Hp; try discriminate;
    intros [= <-]; split; try done; exists f, l; by rewrite ?Hs.
Qed.

Section search.
Context `{PySet}.
Variable total : nat.
Variable prev : list (list Person).
Variable pairs : ledger.

Lemma search_returns (fuel : nat) (current remaining : list Person)
    (used : bool) :
  total ≠ 0 → length current ≤ total → total - length current < fuel →
  ∃ r, _find_arrangement_backtrack fuel current remaining total prev pairs used
       = Ok r.
Proof.
  intros Htotal. revert current remaining used.
  induction fuel as [|fuel IH]; intros current remaining used Hle Hfuel; [lia|].
  simpl. case_bool_decide as Hn.
  - unfold complete_arrangement.
    destruct current as [|a current]; [simpl in Hn; lia|].
    destruct (last (a :: current)) eqn:Hl; [|by apply last_None in Hl].
    cbn [head]. repeat case_match; eauto.
  - apply try_candidates_Ok. intros [[score p] v] _.
    apply IH; rewrite length_app; simpl; lia.
Qed.

Lemma search_found (fuel : nat) (current remaining : list Person)
    (used : bool) (arr : list Person) :
  _find_arrangement_backtrack fuel current remaining total prev pairs used
    = Ok (Some arr) →
  ∃ remaining' used',
    rtc (search_step pairs) (current, remaining, used) (arr, remaining', used') ∧
    length arr = total ∧
    complete_arrangement arr prev pairs used' = Ok (Some arr).
Proof.
  revert current remaining used.
  induction fuel as [|fuel IH]; intros current remaining used; [discriminate|].
  simpl. case_bool_decide as Hn.
  - intros Hc. destruct (complete_arrangement_found _ _ _ _ _ Hc) as [-> _].
    exists remaining, used. done.
  - intros ([[score p] v] & Hin & Hrec)%try_candidates_found.
    apply IH in Hrec as (remaining' & used' & Hsteps & Hlen & Hc).
    exists remaining', used'. split; [|done].
    eapply rtc_l; [|exact Hsteps]. econstructor.
    by rewrite <- sort_by_score_perm.
Qed.
End search.

(** ** Seats, links and neighbours *)

Lemma links_snoc (l : list Person) (p : Person) :
  links (l ++ [p]) = links l ++ match last l with
                                | Some q => [(q, p)]
                                | None => []
                                end.
Proof.
  induction l as [|a l IH]; [done|].
  destruct l as [|b l]; [done|].
  change (links ((a :: b :: l) ++ [p])) with ((a, b) :: links ((b :: l) ++ [p])).
  rewrite IH. by rewrite last_cons_cons.
Qed.

Lemma length_links (l : list Person) : length (links l) = pred (length l).
Proof.
  induction l as [|a l IH]; [done|]. destruct l as [|b l]; [done|].
  change (links (a :: b :: l)) with ((a, b) :: links (b :: l)).
  simpl length in *. by rewrite IH.
Qed.

Lemma links_lookup (l : list Person) (i : nat) (a b : Person) :
  l !! i = Some a → l !! S i = Some b → links l !! i = Some (a, b).
Proof.
  revert i. induction l as [|x l IH]; intros i Ha Hb; [done|].
  destruct l as [|y l]; [done|].
  change (links (x :: y :: l)) with ((x, y) :: links (y :: l)).
  destruct i as [|i]; simpl in *; [congruence|]. by apply IH.
Qed.

Lemma omap_seq_lookup {B} (f : nat → option B) (g : list B) :
  (∀ i, i < length g → f i = g !! i) → omap f (seq 0 (length g)) = g.
Proof.
  induction g as [|x g IH] using rev_ind; intros Hf; [done|].
  rewrite length_app, Nat.add_1_r, seq_S, omap_app. simpl. f_equal.
  - apply IH. intros i Hi. rewrite Hf by (rewrite length_app; simpl; lia).
    by rewrite lookup_app_l.
  - rewrite Hf by (rewrite length_app; simpl; lia).
    by rewrite list_lookup_middle.
Qed.

Lemma neighbour_at_links (arr : list Person) (first_person last_person : Person)
    (i : nat) :
  head arr = Some first_person → last arr = Some last_person →
  i < length arr →
  neighbour_at arr i = (links arr ++ [(last_person, first_person)]) !! i.
Proof.
  intros Hh Hl Hi.
  unfold neighbour_at. rewrite head_lookup in Hh. rewrite last_lookup in Hl.
  destruct (decide (S i = length arr)) as [Hi'|Hi'].
  - replace (i + 1) with (length arr) by lia. rewrite Nat.Div0.mod_same, Hh.
    replace i with (pred (length arr)) at 1 by lia. rewrite Hl. simpl.
    rewrite lookup_app_r by (rewrite length_links; lia).
    rewrite length_links. by replace (i - pred (length arr)) with 0 by lia.
  - rewrite Nat.mod_small by lia.
    destruct (lookup_lt_is_Some_2 arr i) as [a Ha]; [lia|].
    destruct (lookup_lt_is_Some_2 arr (S i)) as [b Hb]; [lia|].
    rewrite Ha, Nat.add_1_r, Hb. simpl.
    rewrite lookup_app_l by (rewrite length_links; lia).
    symmetry. by apply links_lookup.
Qed.

Lemma neighbours_links (arr : list Person) (first_person last_person : Person) :
  head arr = Some first_person → last arr = Some last_person →
  neighbours arr = links arr ++ [(last_person, first_person)].
Proof.
  intros Hh Hl. unfold neighbours.
  assert (length arr = length (links arr ++ [(last_person, first_person)])) as Hlen.
  { rewrite length_app, length_links. destruct arr; [done|]. simpl. lia. }
  rewrite Hlen. apply omap_seq_lookup. rewrite <- Hlen. intros i Hi.
  by apply neighbour_at_links.
Qed.

Lemma neighbours_at (arr : list Person) (i : nat) :
  i < length arr → neighbours arr !! i = neighbour_at arr i.
Proof.
  intros Hi. destruct arr as [|a arr]; [simpl in Hi; lia|].
  destruct (last (a :: arr)) as [l|] eqn:Hl; [|by apply last_None in Hl].
  rewrite (neighbours_links _ a l) by done. symmetry.
  by apply neighbour_at_links.
Qed.

Lemma neighbours_lookup (arr : list Person) (i : nat) (a b : Person) :
  arr !! i = Some a → arr !! ((i + 1) mod length arr) = Some b →
  (a, b) ∈ neighbours arr.
Proof.
  intros Ha Hb. unfold neighbours. apply list_elem_of_omap. exists i. split.
  - apply list_elem_of_lookup. exists i. apply lookup_seq.
    split; [done|]. by eapply lookup_lt_Some.
  - unfold neighbour_at. by rewrite Ha, Hb.
Qed.

Lemma length_neighbours (arr : list Person) :
  length (neighbours arr) = length arr.
Proof.
  destruct arr as [|a arr]; [done|].
  destruct (last (a :: arr)) as [l|] eqn:Hl; [|by apply last_None in Hl].
  rewrite (neighbours_links _ a l) by done.
  rewrite length_app, length_links. simpl. lia.
Qed.

Lemma same_sex_count_app (l1 l2 : list (Person * Person)) :
  same_sex_count (l1 ++ l2) = same_sex_count l1 + same_sex_count l2.
Proof. unfold same_sex_count. by rewrite filter_app, length_app. Qed.

Lemma same_sex_count_all (l : list (Person * Person)) :
  Forall (λ ab, same_sex_pair ab = true) l → same_sex_count l = length l.
Proof.
  unfold same_sex_count. induction 1 as [|ab l Hab _ IH]; [done|].
  rewrite filter_cons_True by done. simpl. by rewrite IH.
Qed.

(** ** Adding the neighbour pairs of a plan *)

Lemma add_neighbour_pairs_indices (arr : list Person) (indices : list nat)
    (pairs : ledger) :
  Forall (λ i, i < length arr) indices →
  add_neighbour_pairs arr (length arr) indices pairs
  = Ok (list_to_set (pair_names <$> omap (neighbour_at arr) indices) ∪ pairs).
Proof.
  intros Hi. revert pairs. induction Hi as [|i indices Hi _ IH]; intros pairs.
  { simpl. f_equal. by rewrite union_empty_l_L. }
  destruct (lookup_lt_is_Some_2 arr i Hi) as [p1 H1].
  destruct (lookup_lt_is_Some_2 arr ((i + 1) mod length arr)) as [p2 H2].
  { apply Nat.mod_upper_bound. lia. }
  cbn [add_neighbour_pairs omap list_omap]. rewrite H1, H2, IH.
  unfold neighbour_at at 2. rewrite H1, H2. simpl. f_equal.
  unfold pair_names at 2. simpl.
  rewrite union_assoc_L. f_equal. apply union_comm_L.
Qed.

Lemma add_neighbour_pairs_all (arr : list Person) (pairs : ledger) :
  add_neighbour_pairs arr (length arr) (seq 0 (length arr)) pairs
  = Ok (list_to_set (pair_names <$> neighbours arr) ∪ pairs).
Proof.
  apply add_neighbour_pairs_indices, Forall_forall.
  intros i Hi%list_elem_of_In%in_seq. lia.
Qed.

(** ** Sets of people *)

Lemma dedup_pid_elem (l : list Person) (x : Person) :
  x ∈ dedup_pid l → x ∈ l.
Proof.
  induction l as [|p l IH]; simpl; [done|].
  intros [->|Hx]%elem_of_cons; [by left|]. right.
  apply list_elem_of_filter in Hx. apply IH, Hx.
Qed.

Lemma dedup_pid_NoDup (l : list Person) : NoDup (pid <$> dedup_pid l).
Proof.
  induction l as [|p l IH]; simpl; [constructor|].
  constructor.
  - intros (q & Hq & Hin)%list_elem_of_fmap.
    apply list_elem_of_filter in Hin. destruct Hin as [Hne _]. congruence.
  - revert IH. generalize (dedup_pid l). intros k Hk.
    induction k as [|q k IHk]; [constructor|].
    apply NoDup_cons in Hk as [Hq Hk].
    destruct (decide (pid q ≠ pid p)).
    + rewrite filter_cons_True by done. simpl. constructor; [|by apply IHk].
      intros (q' & Hq' & Hin)%list_elem_of_fmap. apply Hq.
      apply list_elem_of_fmap. exists q'. split; [done|].
      apply list_elem_of_filter in Hin. apply Hin.
    + rewrite filter_cons_False by done. by apply IHk.
Qed.

Lemma discard_perm (l : list Person) (p : Person) :
  NoDup (pid <$> l) → p ∈ l → p :: filter (λ q, pid q ≠ pid p) l ≡ₚ l.
Proof.
  induction l as [|x l IH]; intros Hnd Hp; [by apply elem_of_nil in Hp|].
  simpl in Hnd. apply NoDup_cons in Hnd as [Hx Hnd].
  destruct (decide (x = p)) as [->|Hne].
  - rewrite filter_cons_False by (intros Hf; by apply Hf).
    f_equiv. clear IH Hp Hnd. induction l as [|y l IHl]; [done|].
    rewrite filter_cons_True.
    + f_equiv. apply IHl. intros Hin. apply Hx. simpl. by right.
    + intros E. apply Hx. simpl. rewrite <- E. by left.
  - apply elem_of_cons in Hp as [->|Hp]; [done|].
    rewrite filter_cons_True.
    + rewrite Permutation_swap. f_equiv. by apply IH.
    + intros E. apply Hx. rewrite E. apply list_elem_of_fmap. eauto.
Qed.

(** ** What the placements preserve *)

Section placements.
Context `{PySet}.
Variable pairs : ledger.
Variable base : list Person.
Hypothesis base_NoDup : NoDup (pid <$> base).

Lemma search_step_inv (s s' : search_state) :
  search_step pairs s s' → search_inv pairs base s → search_inv pairs base s'.
Proof.
  intros [current remaining used score p v Hc]. unfold search_inv.
  intros (Hchain & Hsex & Hperm). simpl in *.
  apply possible_next_people_elem in Hc as (score' & v' & [= <- <-] & Hp & Hq).
  simpl in Hp, Hq. rewrite links_snoc.
  split; [|split].
  - apply Forall_app. split; [done|].
    destruct (last current) as [q|]; [|constructor].
    constructor; [|constructor]. apply Hq.
  - rewrite same_sex_count_app.
    destruct (last current) as [q|]; simpl in *.
    + destruct Hq as [_ Hq]. unfold same_sex_count in *.
      destruct (same_sex q p) eqn:Hs.
      * destruct Hq as [-> ->]. rewrite filter_cons_True by done.
        simpl in *. lia.
      * subst v. rewrite filter_cons_False by (unfold same_sex_pair; simpl; congruence).
        rewrite orb_false_r. simpl. lia.
    + subst v. rewrite orb_false_r. unfold same_sex_count in *. simpl. lia.
  - rewrite <- Hperm, <- app_assoc. f_equiv. simpl.
    rewrite set_discard_perm. apply discard_perm; [|done].
    rewrite <- Hperm in base_NoDup. rewrite fmap_app in base_NoDup.
    by apply NoDup_app in base_NoDup as (_ & _ & ?).
Qed.

Lemma search_steps_inv (s s' : search_state) :
  rtc (search_step pairs) s s' →
  search_inv pairs base s → search_inv pairs base s'.
Proof. induction 1; eauto using search_step_inv. Qed.
End placements.

(** ** What a plan returned by the search satisfies *)

Lemma search_sound `{PySet} (fuel : nat) (people : list Person)
    (prev : list (list Person)) (pairs : ledger) (arr : list Person) :
  _find_arrangement_backtrack fuel [] (set_of_list people) (length people)
    prev pairs false = Ok (Some arr) →
  sound_plan pairs people arr.
Proof.
  intros (remaining' & used' & Hsteps & Hlen & Hc)%search_found.
  apply (search_steps_inv pairs (dedup_pid people)) in Hsteps;
    [|apply dedup_pid_NoDup|].
  2:{ split; [constructor|].
      split; [unfold same_sex_count; simpl; lia|]. simpl. apply set_of_list_perm. }
  destruct Hsteps as (Hchain & Hsex & Hperm). simpl in *.
  apply complete_arrangement_found in Hc
    as (_ & first & lst & Hh & Hl & Hfresh & Hs & _).
  pose proof (neighbours_links _ _ _ Hh Hl) as Hn.
  split; rewrite ?Hn.
  - done.
  - intros p Hp. apply dedup_pid_elem. rewrite <- Hperm.
    apply elem_of_app. by left.
  - pose proof (dedup_pid_NoDup people) as Hnd.
    rewrite <- Hperm, fmap_app in Hnd. by apply NoDup_app in Hnd as (? & _).
  - apply Forall_app. split; [done|]. by repeat constructor.
  - rewrite same_sex_count_app. unfold same_sex_count in *.
    destruct (same_sex lst first) eqn:E.
    + rewrite Hs in Hsex by done. rewrite filter_cons_True by done.
      simpl in *. lia.
    + rewrite filter_cons_False by (unfold same_sex_pair; simpl; congruence).
      destruct used'; simpl in *; lia.
Qed.

(** ** One meal *)

Section one_meal.
Context `{PySet}.
Variable all_people_info : list Person.

Lemma search_for_meal_returns (st : planner) (meal_name : string) :
  2 ≤ length (attendees_of all_people_info meal_name) →
  ∃ r, search_for_meal all_people_info st meal_name = Ok r.
Proof.
  intros Hn. unfold search_for_meal. apply search_returns; simpl; lia.
Qed.

Lemma search_for_meal_sound (st : planner) (meal_name : string)
    (arr : list Person) :
  search_for_meal all_people_info st meal_name = Ok (Some arr) →
  sound_plan (all_seated_neighbour_pairs_globally st)
    (attendees_of all_people_info meal_name) arr.
Proof. apply search_sound. Qed.

Lemma seat_meal_no_one (st : planner) (meal_name : string) :
  attendees_of all_people_info meal_name = [] →
  seat_meal all_people_info st meal_name
  = Ok (mkPlanner (<[meal_name := []]> (final_seating_arrangements st))
          (all_seated_neighbour_pairs_globally st)
          (printed st ++ [mkReport meal_name 0 NoOneAttending])).
Proof. intros Ha. unfold seat_meal. by rewrite Ha. Qed.

Lemma seat_meal_only_one (st : planner) (meal_name : string) (p : Person) :
  attendees_of all_people_info meal_name = [p] →
  seat_meal all_people_info st meal_name
  = Ok (mkPlanner (<[meal_name := [[p]]]> (final_seating_arrangements st))
          (all_seated_neighbour_pairs_globally st)
          (printed st ++ [mkReport meal_name 1 OnlyOnePerson])).
Proof. intros Ha. unfold seat_meal. by rewrite Ha. Qed.

Lemma seat_meal_accepts (st : planner) (meal_name : string)
    (arr : list Person) :
  accepts all_people_info st meal_name arr →
  seat_meal all_people_info st meal_name
  = Ok (mkPlanner
          (<[meal_name := default [] (final_seating_arrangements st !! meal_name)
                          ++ [arr]]> (final_seating_arrangements st))
          (list_to_set (pair_names <$> neighbours arr)
             ∪ all_seated_neighbour_pairs_globally st)
          (printed st ++ [mkReport meal_name
                            (length (attendees_of all_people_info meal_name))
                            FoundPlan])).
Proof.
  intros (Hn & Hne & Hs). unfold seat_meal.
  rewrite !bool_decide_eq_false_2 by lia. rewrite Hs. simpl.
  apply search_for_meal_sound in Hs as [Hlen _ _ _ _].
  destruct arr as [|x arr]; [done|].
  rewrite <- Hlen, add_neighbour_pairs_all. done.
Qed.

Lemma seat_meal_fails (st : planner) (meal_name : string) :
  2 ≤ length (attendees_of all_people_info meal_name) →
  search_for_meal all_people_info st meal_name = Ok None →
  seat_meal all_people_info st meal_name
  = Ok (mkPlanner
          (match final_seating_arrangements st !! meal_name with
           | None => <[meal_name := []]> (final_seating_arrangements st)
           | Some _ => final_seating_arrangements st
           end)
          (all_seated_neighbour_pairs_globally st)
          (printed st ++ [mkReport meal_name
                            (length (attendees_of all_people_info meal_name))
                            NoPlanFound])).
Proof.
  intros Hn Hs. unfold seat_meal.
  rewrite !bool_decide_eq_false_2 by lia. by rewrite Hs.
Qed.

(** The four ways one turn of the loop can go. *)
Lemma seat_meal_cases (st : planner) (meal_name : string) :
  let n := length (attendees_of all_people_info meal_name) in
  (n = 0 ∧ attendees_of all_people_info meal_name = []) ∨
  (n = 1 ∧ ∃ p, attendees_of all_people_info meal_name = [p]) ∨
  (2 ≤ n ∧ search_for_meal all_people_info st meal_name = Ok None) ∨
  (2 ≤ n ∧ ∃ arr, accepts all_people_info st meal_name arr).
Proof.
  intros n. subst n.
  destruct (attendees_of all_people_info meal_name) as [|p [|q l]] eqn:Ha.
  - by left.
  - right; left. eauto.
  - right; right.
    destruct (search_for_meal_returns st meal_name) as [[arr|] Hr];
      [rewrite Ha; simpl; lia| |].
    + right. split; [simpl; lia|]. exists arr.
      split; [rewrite Ha; simpl; lia|]. split; [|done].
      apply search_for_meal_sound in Hr as [Hlen _ _ _ _].
      rewrite Ha in Hlen. by destruct arr.
    + left. split; [simpl; lia | done].
Qed.

Lemma seat_meal_returns (st : planner) (meal_name : string) :
  ∃ st', seat_meal all_people_info st meal_name = Ok st'.
Proof.
  destruct (seat_meal_cases st meal_name)
    as [[_ Ha]|[[_ [p Ha]]|[[Hn Hs]|[Hn [arr Hacc]]]]].
  - rewrite seat_meal_no_one by done. eauto.
  - rewrite (seat_meal_only_one _ _ p) by done. eauto.
  - rewrite seat_meal_fails by done. eauto.
  - rewrite (seat_meal_accepts _ _ arr) by done. eauto.
Qed.
End one_meal.

(** ** How many pairs an accepted plan adds *)

Lemma neighbours_elem (arr : list Person) (ab : Person * Person) :
  ab ∈ neighbours arr → ab.1 ∈ arr ∧ ab.2 ∈ arr.
Proof.
  unfold neighbours. intros (i & _ & Hi)%list_elem_of_omap.
  unfold neighbour_at in Hi.
  destruct (arr !! i) as [a|] eqn:Ha; [|done]. simpl in Hi.
  destruct (arr !! ((i + 1) mod length arr)) as [b|] eqn:Hb; [|done].
  simpl in Hi. injection Hi as <-.
  split; apply list_elem_of_lookup; eauto.
Qed.

Lemma names_inj (people : list Person) (x y : Person) :
  NoDup (name <$> people) → x ∈ people → y ∈ people →
  name x = name y → x = y.
Proof.
  intros Hnd [i Hi]%list_elem_of_lookup [j Hj]%list_elem_of_lookup E.
  assert (i = j) as ->; [|congruence].
  apply (proj1 (NoDup_alt _) Hnd i j (name x)).
  - by rewrite list_lookup_fmap, Hi.
  - by rewrite list_lookup_fmap, Hj, E.
Qed.

Lemma two_seats_apart (n i j : nat) :
  3 ≤ n → i < n → j < n → i = (j + 1) mod n → j = (i + 1) mod n → False.
Proof.
  intros Hn Hi Hj E1 E2.
  destruct (decide (j + 1 = n)) as [Hj'|Hj'].
  - rewrite Hj', Nat.Div0.mod_same in E1. subst i.
    rewrite Nat.mod_small in E2 by lia. lia.
  - rewrite Nat.mod_small in E1 by lia. subst i.
    destruct (decide (j + 1 + 1 = n)) as [Hj''|Hj''].
    + rewrite Hj'', Nat.Div0.mod_same in E2. lia.
    + rewrite Nat.mod_small in E2 by lia. lia.
Qed.

Lemma neighbour_pairs_NoDup (arr : list Person) :
  3 ≤ length arr → NoDup (name <$> arr) →
  NoDup (pair_names <$> neighbours arr).
Proof.
  intros Hn Hnd. apply NoDup_alt. intros i j x Hi Hj.
  rewrite list_lookup_fmap in Hi, Hj.
  destruct (neighbours arr !! i) as [[a b]|] eqn:Hi'; [|done].
  destruct (neighbours arr !! j) as [[c d]|] eqn:Hj'; [|done].
  pose proof (lookup_lt_Some _ _ _ Hi') as Hil.
  pose proof (lookup_lt_Some _ _ _ Hj') as Hjl.
  rewrite length_neighbours in Hil, Hjl.
  rewrite neighbours_at in Hi', Hj' by done.
  unfold neighbour_at in Hi', Hj'.
  destruct (arr !! i) as [a'|] eqn:Ha; [|done]. simpl in Hi'.
  destruct (arr !! ((i + 1) mod length arr)) as [b'|] eqn:Hb; [|done].
  destruct (arr !! j) as [c'|] eqn:Hc; [|done]. simpl in Hj'.
  destruct (arr !! ((j + 1) mod length arr)) as [d'|] eqn:Hd; [|done].
  simpl in Hi', Hj', Hi, Hj.
  injection Hi' as -> ->. injection Hj' as -> ->. injection Hi as <-.
  assert (∀ k1 k2 p q, arr !! k1 = Some p → arr !! k2 = Some q →
                       name p = name q → k1 = k2) as Hinj.
  { intros k1 k2 p q H1 H2 E.
    apply (proj1 (NoDup_alt _) Hnd k1 k2 (name p)).
    - by rewrite list_lookup_fmap, H1.
    - by rewrite list_lookup_fmap, H2, E. }
  injection Hj as Hj. unfold pair_names, pair_of in Hj. simpl in Hj.
  apply canonical_pair_inj in Hj as [[E1 E2]|[E1 E2]].
  - symmetry. by eapply Hinj.
  - exfalso. apply (two_seats_apart (length arr) i j); try done.
    + symmetry. by eapply (Hinj _ _ _ _ Hd Ha).
    + symmetry. by eapply (Hinj _ _ _ _ Hb Hc).
Qed.

Lemma size_after_plan (pairs : ledger) (people : list Person)
    (arr : list Person) :
  2 ≤ length people → NoDup (name <$> people) →
  sound_plan pairs people arr →
  size (list_to_set (pair_names <$> neighbours arr) ∪ pairs)
  = size pairs + pairs_added (length people).
Proof.
  intros Hn Hnames [Hlen Hin Hpid Hfresh _].
  rewrite size_union.
  2:{ intros x Hx%elem_of_list_to_set Hp.
      apply list_elem_of_fmap in Hx as (ab & -> & Hab).
      by apply (proj1 (Forall_forall _ _) Hfresh ab Hab). }
  rewrite Nat.add_comm. f_equal. unfold pairs_added. case_bool_decide as H2.
  - rewrite H2 in Hlen. destruct arr as [|a [|b [|c arr]]]; try done.
    change (neighbours [a; b]) with [(a, b); (b, a)].
    assert (list_to_set (pair_names <$> [(a, b); (b, a)])
            =@{ledger} {[pair_of a b]}) as ->; [|apply size_singleton].
    unfold pair_names. simpl. rewrite (pair_of_comm b a).
    by rewrite union_empty_r_L, union_idemp_L.
  - rewrite size_list_to_set.
    + by rewrite length_fmap, length_neighbours.
    + apply neighbour_pairs_NoDup; [lia|].
      apply NoDup_fmap_2_strong; [|by eapply NoDup_fmap_1].
      intros x y Hx Hy. apply (names_inj people); auto.
Qed.

(** ** The run over the meals *)

Section run.
Context `{PySet}.
Variable all_people_info : list Person.

Lemma seat_meals_app (meals1 meals2 : list string) (st : planner) :
  seat_meals all_people_info (meals1 ++ meals2) st
  = seat_meals all_people_info meals1 st ≫= seat_meals all_people_info meals2.
Proof.
  revert st. induction meals1 as [|m meals1 IH]; intros st; [done|].
  simpl. destruct (seat_meal all_people_info st m); simpl; [apply IH | done].
Qed.

Lemma attendees_names_NoDup (meal_name : string) :
  NoDup (name <$> all_people_info) →
  NoDup (name <$> attendees_of all_people_info meal_name).
Proof.
  intros Hnd. eapply sublist_NoDup; [exact Hnd|].
  apply fmap_sublist, sublist_filter.
Qed.

(** One turn of the loop: one more line printed, pairs only added. *)
Lemma seat_meal_summary (st : planner) (meal_name : string) :
  ∃ st' r,
    seat_meal all_people_info st meal_name = Ok st' ∧
    printed st' = printed st ++ [r] ∧
    report_meal r = meal_name ∧
    report_attendees r = length (attendees_of all_people_info meal_name) ∧
    all_seated_neighbour_pairs_globally st
      ⊆ all_seated_neighbour_pairs_globally st' ∧
    (NoDup (name <$> all_people_info) →
     size (all_seated_neighbour_pairs_globally st')
     = size (all_seated_neighbour_pairs_globally st) + ledger_gain r).
Proof.
  destruct (seat_meal_cases all_people_info st meal_name)
    as [[Hn Ha]|[[Hn [p Ha]]|[[Hn Hs]|[Hn [arr Hacc]]]]].
  - rewrite seat_meal_no_one by done. do 2 eexists.
    split_and!; simpl; rewrite ?Ha; try done;
      intros _; by rewrite Nat.add_0_r.
  - rewrite (seat_meal_only_one _ _ _ p) by done. do 2 eexists.
    split_and!; simpl; rewrite ?Ha; try done;
      intros _; by rewrite Nat.add_0_r.
  - rewrite seat_meal_fails by done. do 2 eexists.
    split_and!; simpl; try done; intros _; by rewrite Nat.add_0_r.
  - rewrite (seat_meal_accepts _ _ _ arr) by done. do 2 eexists.
    split_and!; simpl; try done; [apply union_subseteq_r|].
    intros Hnd. unfold ledger_gain. simpl.
    destruct Hacc as (_ & _ & Hs).
    apply (size_after_plan _ (attendees_of all_people_info meal_name));
      [done | by apply attendees_names_NoDup | by apply search_for_meal_sound].
Qed.

Lemma seat_meals_summary (meal_names_list : list string) (st : planner) :
  ∃ st' reports,
    seat_meals all_people_info meal_names_list st = Ok st' ∧
    printed st' = printed st ++ reports ∧
    report_meal <$> reports = meal_names_list ∧
    Forall (λ r, report_attendees r
                 = length (attendees_of all_people_info (report_meal r)))
      reports ∧
    all_seated_neighbour_pairs_globally st
      ⊆ all_seated_neighbour_pairs_globally st' ∧
    (NoDup (name <$> all_people_info) →
     size (all_seated_neighbour_pairs_globally st')
     = size (all_seated_neighbour_pairs_globally st)
       + sum_list_with ledger_gain reports).
Proof.
  revert st. induction meal_names_list as [|m meals IH]; intros st.
  { exists st, []. simpl. rewrite app_nil_r. split_and!; auto. }
  destruct (seat_meal_summary st m) as (st1 & r & Hst1 & Hp1 & Hm1 & Hn1 & Hsub1 & Hsz1).
  destruct (IH st1) as (st' & reports & Hst' & Hp & Hm & Hn & Hsub & Hsz).
  exists st', (r :: reports). split_and!.
  - simpl. by rewrite Hst1.
  - by rewrite Hp, Hp1, <- app_assoc.
  - by rewrite fmap_cons, Hm1, Hm.
  - constructor; [by rewrite Hn1, Hm1 | done].
  - by etrans.
  - intros Hnd. rewrite Hsz, Hsz1 by done. simpl. lia.
Qed.

Lemma seat_meals_returns (meal_names_list : list string) (st : planner) :
  ∃ st', seat_meals all_people_info meal_names_list st = Ok st'.
Proof.
  destruct (seat_meals_summary meal_names_list st) as (st' & _ & Hst' & _).
  eauto.
Qed.

(** A turn of the loop for one meal leaves the entries of the others. *)
Lemma seat_meal_other (st st' : planner) (meal_name other : string) :
  seat_meal all_people_info st meal_name = Ok st' → other ≠ meal_name →
  final_seating_arrangements st' !! other
  = final_seating_arrangements st !! other.
Proof.
  intros Hst Hne. revert Hst.
  destruct (seat_meal_cases all_people_info st meal_name)
    as [[Hn Ha]|[[Hn [p Ha]]|[[Hn Hs]|[Hn [arr Hacc]]]]].
  - rewrite seat_meal_no_one by done. intros [= <-]. simpl.
    by rewrite lookup_insert_ne.
  - rewrite (seat_meal_only_one _ _ _ p) by done. intros [= <-]. simpl.
    by rewrite lookup_insert_ne.
  - rewrite seat_meal_fails by done. intros [= <-]. simpl.
    destruct (final_seating_arrangements st !! meal_name); [done|].
    by rewrite lookup_insert_ne.
  - rewrite (seat_meal_accepts _ _ _ arr) by done. intros [= <-]. simpl.
    by rewrite lookup_insert_ne.
Qed.

(** A meal whose turn always writes the same entry [v] ends with [v]. *)
Lemma seat_meals_fixed_entry (meal_name : string) (v : list (list Person))
    (meal_names_list : list string) (st st' : planner) :
  (∀ s s', seat_meal all_people_info s meal_name = Ok s' →
           final_seating_arrangements s' !! meal_name = Some v) →
  seat_meals all_people_info meal_names_list st = Ok st' →
  meal_name ∈ meal_names_list
    ∨ final_seating_arrangements st !! meal_name = Some v →
  final_seating_arrangements st' !! meal_name = Some v.
Proof.
  intros Hv. revert st.
  induction meal_names_list as [|m meals IH]; intros st Hrun Hin.
  { simpl in Hrun. injection Hrun as <-.
    destruct Hin as [Hin|]; [by apply elem_of_nil in Hin | done]. }
  simpl in Hrun. apply bind_Ok in Hrun as (st1 & Hst1 & Hrun).
  apply (IH st1 Hrun).
  destruct (decide (meal_name = m)) as [<-|Hne]; [right; by eapply Hv|].
  destruct Hin as [Hin|Hin].
  - apply elem_of_cons in Hin as [?|?]; [done | by left].
  - right. by rewrite (seat_meal_other st st1 m meal_name).
Qed.
End run.

(** ** What the dictionary of plans holds *)

Lemma accepted_in_run_snoc `{PySet} (all_people_info : list Person)
    (meal_names_list : list string) (later : string) (st : planner)
    (meal_name : string) (arr : list Person) :
  accepted_in_run all_people_info meal_names_list st meal_name arr →
  accepted_in_run all_people_info (meal_names_list ++ [later]) st meal_name arr.
Proof.
  intros (before & after & -> & Hrun & Hacc).
  exists before, (after ++ [later]). split; [|done].
  by rewrite <- app_assoc.
Qed.

(** A line saying that a plan was found is printed exactly when one was
    accepted. *)
Lemma seat_meal_report `{PySet} (all_people_info : list Person)
    (st st' : planner) (meal_name : string) :
  seat_meal all_people_info st meal_name = Ok st' →
  ∃ r, printed st' = printed st ++ [r] ∧
       (report_outcome r = FoundPlan ↔
        ∃ arr, accepts all_people_info st meal_name arr).
Proof.
  destruct (seat_meal_cases all_people_info st meal_name)
    as [[Hn Ha]|[[Hn [p Ha]]|[[Hn Hs]|[Hn [arr Hacc]]]]].
  - rewrite seat_meal_no_one by done. intros [= <-]. eexists. split; [done|].
    simpl. split; [done|]. intros (arr & Hlen & _). rewrite Ha in Hlen.
    simpl in Hlen. lia.
  - rewrite (seat_meal_only_one _ _ _ p) by done. intros [= <-].
    eexists. split; [done|].
    simpl. split; [done|]. intros (arr & Hlen & _). rewrite Ha in Hlen.
    simpl in Hlen. lia.
  - rewrite seat_meal_fails by done. intros [= <-]. eexists. split; [done|].
    simpl. split; [done|]. intros (arr & _ & _ & Hs'). congruence.
  - rewrite (seat_meal_accepts _ _ _ arr) by done. intros [= <-].
    eexists. split; [done|]. simpl. split; eauto.
Qed.

(** Every plan in the returned dictionary is the list of people of a meal
    of one person, or was accepted by the search during the run. *)
Lemma recorded_plan_cases `{PySet} (all_people_info : list Person)
    (meal_names_list : list string) (st : planner) (meal_name : string)
    (arrs : list (list Person)) (arr : list Person) :
  seat_people_run all_people_info meal_names_list = Ok st →
  final_seating_arrangements st !! meal_name = Some arrs →
  arr ∈ arrs →
  (attendees_of all_people_info meal_name = arr ∧ length arr = 1) ∨
  ∃ st0, accepted_in_run all_people_info meal_names_list st0 meal_name arr.
Proof.
  revert st arrs.
  induction meal_names_list as [|m meals IH] using rev_ind;
    intros st arrs Hrun Hm Hin.
  { injection Hrun as <-. simpl in Hm. by rewrite lookup_empty in Hm. }
  unfold seat_people_run in Hrun. rewrite seat_meals_app in Hrun.
  apply bind_Ok in Hrun as (st1 & Hst1 & Hlast). simpl in Hlast.
  apply bind_Ok in Hlast as (st2 & Hst2 & [= ->]).
  assert (∀ v, final_seating_arrangements st1 !! meal_name = Some v →
               arr ∈ v →
               (attendees_of all_people_info meal_name = arr ∧ length arr = 1) ∨
               ∃ st0, accepted_in_run all_people_info (meals ++ [m]) st0
                        meal_name arr) as Hold.
  { intros v Hv Hv'. destruct (IH st1 v Hst1 Hv Hv') as [?|[st0 Hacc]]; [by left|].
    right. exists st0. by apply accepted_in_run_snoc. }
  destruct (decide (meal_name = m)) as [->|Hne];
    [|rewrite (seat_meal_other all_people_info st1 st m meal_name) in Hm by done;
      by eapply Hold].
  revert Hst2.
  destruct (seat_meal_cases all_people_info st1 m)
    as [[Hn Ha]|[[Hn [p Ha]]|[[Hn Hs]|[Hn [arr' Hacc]]]]].
  - rewrite seat_meal_no_one by done. intros [= <-]. simpl in Hm.
    rewrite lookup_insert_eq in Hm. injection Hm as <-.
    by apply elem_of_nil in Hin.
  - rewrite (seat_meal_only_one _ _ _ p) by done. intros [= <-]. simpl in Hm.
    rewrite lookup_insert_eq in Hm. injection Hm as <-.
    apply list_elem_of_singleton in Hin as ->. left. by rewrite Ha.
  - rewrite seat_meal_fails by done. intros [= <-]. simpl in Hm.
    destruct (final_seating_arrangements st1 !! m) as [v|] eqn:Hv.
    + rewrite Hv in Hm. injection Hm as <-. by eapply Hold.
    + rewrite lookup_insert_eq in Hm. injection Hm as <-.
      by apply elem_of_nil in Hin.
  - rewrite (seat_meal_accepts _ _ _ arr') by done. intros [= <-]. simpl in Hm.
    rewrite lookup_insert_eq in Hm. injection Hm as <-.
    apply elem_of_app in Hin as [Hin|Hin].
    + destruct (final_seating_arrangements st1 !! m) as [v|] eqn:Hv;
        [by eapply Hold | by apply elem_of_nil in Hin].
    + apply list_elem_of_singleton in Hin as ->. right. exists st1, meals, [].
      done.
Qed.

(** ** Order of the candidates *)

Lemma insert_by_score_stable (z : Z) (c : candidate) (l : list candidate) :
  filter (λ d, _get_candidate_score d = z) (insert_by_score c l)
  = filter (λ d, _get_candidate_score d = z) (c :: l).
Proof.
  induction l as [|d l IH]; simpl; [done|].
  case_bool_decide as Hle; [done|].
  rewrite (filter_cons _ d), IH, !(filter_cons _ c), (filter_cons _ d).
  repeat case_decide; try done; lia.
Qed.

Lemma sort_by_score_stable (z : Z) (l : list candidate) :
  filter (λ d, _get_candidate_score d = z) (sort_by_score l)
  = filter (λ d, _get_candidate_score d = z) l.
Proof.
  induction l as [|c l IH]; simpl; [done|].
  by rewrite insert_by_score_stable, !(filter_cons _ c), IH.
Qed.

Lemma insert_by_score_sorted (c : candidate) (l : list candidate) :
  Sorted score_le l → Sorted score_le (insert_by_score c l).
Proof.
  induction 1 as [|d l Hs IH Hd]; simpl; [by repeat constructor|].
  case_bool_decide as Hle.
  - by repeat constructor.
  - constructor; [done|]. destruct l as [|e l]; simpl.
    + constructor. unfold score_le. lia.
    + case_bool_decide; constructor; [unfold score_le; lia|].
      by inversion Hd.
Qed.

Lemma sort_by_score_sorted (l : list candidate) :
  Sorted score_le (sort_by_score l).
Proof.
  induction l as [|c l IH]; simpl; [constructor|].
  by apply insert_by_score_sorted.
Qed.

#[local] Instance score_le_trans : Transitive score_le.
Proof. intros c d e. unfold score_le. lia. Qed.

(** The loop over the candidates returns the plan of the first candidate,
    in the order of the list, whose recursive call finds one. *)
Lemma try_candidates_first (recurse : candidate → res (option (list Person)))
    (candidates : list candidate) (arr : list Person) :
  try_candidates recurse candidates = Ok (Some arr) →
  ∃ k c, candidates !! k = Some c ∧ recurse c = Ok (Some arr) ∧ arr ≠ [] ∧
         ∀ k' d, k' < k → candidates !! k' = Some d →
                 recurse d = Ok None ∨ recurse d = Ok (Some []).
Proof.
  induction candidates as [|c rest IH]; simpl; [done|].
  destruct (recurse c) as [[[|x l]|]|e] eqn:Hc; simpl; try done.
  - intros (k & d & Hk & Hd & Hne & Hbefore)%IH.
    exists (S k), d. split_and!; [done..|].
    intros [|k'] d' Hlt Hd'; simpl in Hd'.
    + injection Hd' as <-. by right.
    + apply (Hbefore k'); [lia | done].
  - intros [= <-]. exists 0, c. split_and!; [done..|]. intros k' d Hlt. lia.
  - intros (k & d & Hk & Hd & Hne & Hbefore)%IH.
    exists (S k), d. split_and!; [done..|].
    intros [|k'] d' Hlt Hd'; simpl in Hd'.
    + injection Hd' as <-. by left.
    + apply (Hbefore k'); [lia | done].
Qed.

(** Where the sort puts a new candidate: after the candidates of smaller
    score, before those of equal or greater score. *)
Lemma insert_by_score_split (c : candidate) (l : list candidate) :
  Sorted score_le l →
  ∃ l1 l2, l = l1 ++ l2 ∧ insert_by_score c l = l1 ++ c :: l2 ∧
           Forall (λ d, (_get_candidate_score d < _get_candidate_score c)%Z) l1 ∧
           Forall (λ d, (_get_candidate_score c ≤ _get_candidate_score d)%Z) l2.
Proof.
  intros Hs%Sorted_StronglySorted; [|apply _].
  induction Hs as [|d l Hl IH Hd]; simpl.
  - by exists [], [].
  - case_bool_decide as Hle.
    + exists [], (d :: l). split_and!; [done | done | constructor |].
      constructor; [done|]. eapply Forall_impl; [exact Hd|].
      intros e He. unfold score_le in He. lia.
    + destruct IH as (l1 & l2 & -> & -> & H1 & H2).
      exists (d :: l1), l2. split_and!; [done | done | | done].
      constructor; [lia | done].
Qed.

(** The sorted list in terms of the list before the sort: a candidate of
    the sorted list stands, in the list before the sort, at a place such
    that every candidate of smaller score, and every candidate of equal
    score standing before that place, comes earlier in the sorted list. *)
Lemma sort_by_score_tried_before (possible : list candidate) (k : nat)
    (c : candidate) :
  sort_by_score possible !! k = Some c →
  ∃ j, possible !! j = Some c ∧
       ∀ i d, possible !! i = Some d →
         (_get_candidate_score d < _get_candidate_score c)%Z ∨
         (_get_candidate_score d = _get_candidate_score c ∧ i < j) →
         ∃ k', k' < k ∧ sort_by_score possible !! k' = Some d.
Proof.
  revert k c. induction possible as [|x possible IH]; intros k c Hk; [done|].
  change (sort_by_score (x :: possible))
    with (insert_by_score x (sort_by_score possible)) in *.
  destruct (insert_by_score_split x (sort_by_score possible)
              (sort_by_score_sorted _)) as (l1 & l2 & Hl & Hins & H1 & H2).
  rewrite Hins in *. clear Hins.
  destruct (lt_eq_lt_dec k (length l1)) as [[Hlt|Heq]|Hgt].
  - rewrite lookup_app_l in Hk by done.
    assert (sort_by_score possible !! k = Some c) as Hk'.
    { by rewrite Hl, lookup_app_l. }
    destruct (IH _ _ Hk') as (j & Hj & Hbefore).
    pose proof (proj1 (Forall_lookup _ _) H1 _ _ Hk) as Hcx. simpl in Hcx.
    exists (S j). split; [done|]. intros [|i] d Hd Hord; simpl in Hd.
    + injection Hd as <-. lia.
    + destruct (Hbefore i d Hd) as (k' & Hk'lt & Hk'd); [lia|].
      exists k'. split; [done|].
      rewrite Hl, lookup_app_l in Hk'd by lia. by rewrite lookup_app_l by lia.
  - subst k. rewrite list_lookup_middle in Hk by done. injection Hk as <-.
    exists 0. split; [done|]. intros [|i] d Hd Hord; simpl in Hd.
    + injection Hd as <-. lia.
    + assert (d ∈ sort_by_score possible) as Hin.
      { rewrite sort_by_score_perm. apply list_elem_of_lookup. eauto. }
      rewrite Hl in Hin. apply elem_of_app in Hin as [Hin|Hin].
      * apply list_elem_of_lookup in Hin as [k' Hk'].
        exists k'. pose proof (lookup_lt_Some _ _ _ Hk'). split; [done|].
        by rewrite lookup_app_l.
      * pose proof (proj1 (Forall_forall _ _) H2 _ Hin) as Hxd. simpl in Hxd.
        lia.
  - destruct k as [|k]; [lia|].
    assert (sort_by_score possible !! k = Some c) as Hk'.
    { rewrite Hl, lookup_app_r by lia.
      rewrite lookup_app_r in Hk by lia.
      replace (S k - length l1) with (S (k - length l1)) in Hk by lia.
      done. }
    destruct (IH _ _ Hk') as (j & Hj & Hbefore).
    exists (S j). split; [done|]. intros [|i] d Hd Hord; simpl in Hd.
    + injection Hd as <-. exists (length l1). split; [done|].
      by rewrite list_lookup_middle.
    + destruct (Hbefore i d Hd) as (k' & Hk'lt & Hk'd); [lia|].
      rewrite Hl in Hk'd.
      destruct (decide (k' < length l1)) as [Hin|Hout].
      * exists k'. split; [lia|].
        rewrite lookup_app_l in Hk'd by done. by rewrite lookup_app_l.
      * exists (S k'). split; [lia|].
        rewrite lookup_app_r in Hk'd by lia. rewrite lookup_app_r by lia.
        by replace (S k' - length l1) with (S (k' - length l1)) by lia.
Qed.

(** ** The search uses the set only through its iteration order *)

Lemma try_candidates_ext (f g : candidate → res (option (list Person)))
    (cands : list candidate) :
  (∀ c, f c = g c) → try_candidates f cands = try_candidates g cands.
Proof.
  intros Hfg. induction cands as [|c cands IH]; simpl; [done|].
  by rewrite Hfg, IH.
Qed.

Section same_order.
Variables S1 S2 : PySet.
Hypothesis HS : same_order S1 S2.

Lemma find_arrangement_backtrack_ext (fuel : nat)
    (current remaining : list Person) (total : nat)
    (prev : list (list Person)) (pairs : ledger) (used : bool) :
  @_find_arrangement_backtrack S1 fuel current remaining total prev pairs used
  = @_find_arrangement_backtrack S2 fuel current remaining total prev pairs used.
Proof.
  revert current remaining used.
  induction fuel as [|fuel IH]; intros current remaining used; [done|].
  simpl. case_bool_decide; [done|].
  apply try_candidates_ext. intros [[score p] v].
  rewrite (proj2 HS). apply IH.
Qed.

Lemma seat_meal_ext (people : list Person) (st : planner) (m : string) :
  @seat_meal S1 people st m = @seat_meal S2 people st m.
Proof.
  unfold seat_meal, search_for_meal.
  by rewrite find_arrangement_backtrack_ext, (proj1 HS).
Qed.

Lemma seat_meals_ext (people : list Person) (meals : list string)
    (st : planner) :
  @seat_meals S1 people meals st = @seat_meals S2 people meals st.
Proof.
  revert st. induction meals as [|m meals IH]; intros st; [done|].
  simpl. rewrite seat_meal_ext.
  destruct (@seat_meal S2 people st m); simpl; [apply IH | done].
Qed.
End same_order.

(** ** People of one sex *)

Lemma all_same_sex_fail `{PySet} (all_people_info : list Person)
    (st : planner) (meal_name : string) :
  2 ≤ length (attendees_of all_people_info meal_name) →
  (∀ x y, x ∈ attendees_of all_people_info meal_name →
          y ∈ attendees_of all_people_info meal_name → sex x = sex y) →
  search_for_meal all_people_info st meal_name = Ok None.
Proof.
  intros Hn Hsex.
  destruct (search_for_meal_returns all_people_info st meal_name Hn)
    as [[arr|] Hr]; [exfalso | done].
  apply search_for_meal_sound in Hr as [Hlen Hin _ _ Hbudget].
  rewrite same_sex_count_all, length_neighbours in Hbudget; [lia|].
  apply Forall_forall. intros ab [Ha Hb]%neighbours_elem.
  unfold same_sex_pair, same_sex. apply bool_decide_eq_true_2. auto.
Qed.

(** * The seating core: invariants *)

(** C1 (hard-constraint invariant). Whenever the planner accepts a plan for
    a meal during a run, no two neighbours of that plan, the last and the
    first person included, form a pair that is already in the set of seated
    neighbour pairs at that moment. The plans accepted are those the search
    returns ([recorded_plan_cases]); a meal of one person is recorded
    without a search and has no neighbours to check. *)
Theorem no_repeated_neighbours `{PySet} (all_people_info : list Person)
    (meal_names_list : list string) (st : planner) (meal_name : string)
    (arr : list Person) (i : nat) (a b : Person) :
  accepted_in_run all_people_info meal_names_list st meal_name arr →
  arr !! i = Some a →
  arr !! ((i + 1) mod length arr) = Some b →
  canonical_pair (name a) (name b) ∉ all_seated_neighbour_pairs_globally st.
Proof.
  intros (before & after & _ & _ & (_ & _ & Hs)) Ha Hb.
  apply search_for_meal_sound in Hs as [_ _ _ Hfresh _].
  apply (proj1 (Forall_forall _ _) Hfresh (a, b)).
  by eapply neighbours_lookup.
Qed.

Lemma dinner_after_lunch_accepted :
  @accepted_in_run insertion_order guests
    ["Lunch"%string; "Dinner"%string] after_lunch "Dinner" [alice; dave].
Proof.
  exists ["Lunch"%string], []. split; [reflexivity|].
  split; [vm_compute; reflexivity|].
  split; [vm_compute; lia|].
  split; [discriminate | vm_compute; reflexivity].
Defined.

Lemma no_repeated_neighbours_witness :
  @accepted_in_run insertion_order guests
    ["Lunch"%string; "Dinner"%string] after_lunch "Dinner" [alice; dave] ∧
  canonical_pair "Dave" "Alice" ∉ all_seated_neighbour_pairs_globally after_lunch.
Proof.
  split; [exact dinner_after_lunch_accepted|].
  apply (@no_repeated_neighbours insertion_order guests
           ["Lunch"%string; "Dinner"%string] after_lunch "Dinner"
           [alice; dave] 1 dave alice);
    [exact dinner_after_lunch_accepted | reflexivity | reflexivity].
Defined.

(** C2 (same-sex budget). A plan accepted during a run, and every plan of
    the returned dictionary, has at most one pair of neighbours of the same
    sex, the last and the first person included. Once the one allowed pair
    is used, a person of the sex of the person seated last is not a
    candidate at all, and a table whose last and first person have the same
    sex is not returned. *)
Theorem same_sex_budget `{PySet} (all_people_info : list Person)
    (meal_names_list : list string) (st : planner) (meal_name : string)
    (arr : list Person) :
  (accepted_in_run all_people_info meal_names_list st meal_name arr →
   same_sex_count (neighbours arr) ≤ 1) ∧
  (∀ plans arrs,
     seat_people all_people_info meal_names_list = Ok plans →
     plans !! meal_name = Some arrs → arr ∈ arrs →
     same_sex_count (neighbours arr) ≤ 1) ∧
  (∀ pairs q p, same_sex q p = true → try_person pairs true (Some q) p = None) ∧
  (∀ current prev pairs first_person last_person,
     head current = Some first_person → last current = Some last_person →
     same_sex last_person first_person = true →
     complete_arrangement current prev pairs true = Ok None).
Proof.
  assert (∀ st0, accepted_in_run all_people_info meal_names_list st0 meal_name arr →
                 same_sex_count (neighbours arr) ≤ 1) as Hacc.
  { intros st0 (before & after & _ & _ & (_ & _ & Hs)).
    by apply search_for_meal_sound in Hs as [_ _ _ _ Hbudget]. }
  split; [apply Hacc|]. split; [|split].
  - intros plans arrs Hrun Hm Hin. unfold seat_people in Hrun.
    apply bind_Ok in Hrun as (st' & Hrun & [= <-]).
    destruct (recorded_plan_cases _ _ _ _ _ _ Hrun Hm Hin)
      as [[_ Hone]|[st0 Hst0]]; [|by eapply Hacc].
    destruct arr as [|p [|q arr]]; try done.
    unfold same_sex_count. etrans; [apply length_filter|]. done.
  - intros pairs q p Hqp. unfold try_person. rewrite Hqp.
    by case_bool_decide.
  - intros current prev pairs f l Hh Hl Hfl. unfold complete_arrangement.
    rewrite Hh, Hl, Hfl. by case_bool_decide.
Qed.

Lemma brunch_accepted :
  @accepted_in_run insertion_order guests ["Brunch"%string]
    planner_start "Brunch" [carol; dave; erin].
Proof.
  exists [], []. split; [reflexivity|].
  split; [reflexivity|].
  split; [vm_compute; lia|].
  split; [discriminate | vm_compute; reflexivity].
Defined.

Lemma same_sex_budget_witness :
  @accepted_in_run insertion_order guests ["Brunch"%string]
    planner_start "Brunch" [carol; dave; erin] ∧
  (plans ← @seat_people insertion_order guests ["Brunch"%string];
   Ok (plans !! "Brunch"%string)) = Ok (Some [[carol; dave; erin]]) ∧
  same_sex_count (neighbours [carol; dave; erin]) ≤ 1 ∧
  try_person ∅ true (Some carol) erin = None ∧
  complete_arrangement [carol; dave; erin] [] ∅ true = Ok None.
Proof.
  destruct (@same_sex_budget insertion_order guests ["Brunch"%string]
              planner_start "Brunch" [carol; dave; erin])
    as (Hcount & _ & Hcand & Hwrap).
  split; [exact brunch_accepted|]. split; [vm_compute; reflexivity|].
  split; [exact (Hcount brunch_accepted)|]. split.
  - apply Hcand. reflexivity.
  - apply (Hwrap _ _ _ carol erin); reflexivity.
Defined.

(** C3 as the specification words it fails on a table for two: the one
    accepted plan of [Lunch] has two people, yet it adds a single pair,
    because its two seats have the same two neighbours. *)
Lemma table_for_two_adds_one_pair :
  (st ← @seat_people_run insertion_order [alice; bob] ["Lunch"%string];
   Ok (size (all_seated_neighbour_pairs_globally st),
       sum_list_with attendees_of_accepted (printed st)))
  = Ok (1, 2).
Proof. vm_compute. reflexivity. Qed.

(** C3 (ledger monotonicity), amended. Across a run the set of seated
    neighbour pairs only gains elements: what it holds after the first meals
    of the list it still holds after all of them. The run prints one line per
    meal, in order, with the number of people of the meal. When names are
    unique, the size of the set after the run is the sum, over the meals for
    which a plan was found, of the number of people of the meal, a table for
    two counting for one pair. *)
Theorem ledger_growth `{PySet} (all_people_info : list Person)
    (before after : list string) :
  ∃ st1 st2,
    seat_people_run all_people_info before = Ok st1 ∧
    seat_people_run all_people_info (before ++ after) = Ok st2 ∧
    all_seated_neighbour_pairs_globally st1
      ⊆ all_seated_neighbour_pairs_globally st2 ∧
    size (all_seated_neighbour_pairs_globally st1)
      ≤ size (all_seated_neighbour_pairs_globally st2) ∧
    report_meal <$> printed st2 = before ++ after ∧
    Forall (λ r, report_attendees r
                 = length (attendees_of all_people_info (report_meal r)))
      (printed st2) ∧
    (NoDup (name <$> all_people_info) →
     size (all_seated_neighbour_pairs_globally st2)
     = sum_list_with ledger_gain (printed st2)).
Proof.
  unfold seat_people_run. rewrite seat_meals_app.
  destruct (seat_meals_summary all_people_info before planner_start)
    as (st1 & r1 & Hst1 & Hp1 & Hm1 & Hn1 & _ & Hsz1).
  destruct (seat_meals_summary all_people_info after st1)
    as (st2 & r2 & Hst2 & Hp2 & Hm2 & Hn2 & Hsub & Hsz2).
  exists st1, st2. rewrite Hst1. simpl. rewrite Hst2.
  simpl in Hp1.
  split_and!; try done.
  - by apply subseteq_size.
  - by rewrite Hp2, Hp1, fmap_app, Hm1, Hm2.
  - rewrite Hp2, Hp1. by apply Forall_app.
  - intros Hnd. rewrite Hsz2, Hsz1 by done.
    rewrite Hp2, Hp1, sum_list_with_app.
    change (all_seated_neighbour_pairs_globally planner_start) with (∅ : ledger).
    by rewrite size_empty.
Qed.

Lemma ledger_growth_witness :
  NoDup (name <$> guests) ∧
  ∃ st1 st2,
    @seat_people_run insertion_order guests ["Lunch"%string] = Ok st1 ∧
    @seat_people_run insertion_order guests
      (["Lunch"%string] ++ ["Brunch"%string; "Tea"%string]) = Ok st2 ∧
    all_seated_neighbour_pairs_globally st1
      ⊆ all_seated_neighbour_pairs_globally st2 ∧
    size (all_seated_neighbour_pairs_globally st2)
    = sum_list_with ledger_gain (printed st2).
Proof.
  assert (NoDup (name <$> guests)) as Hnd.
  { apply (bool_decide_unpack (NoDup (name <$> guests))). vm_compute. exact I. }
  split; [exact Hnd|].
  destruct (@ledger_growth insertion_order guests ["Lunch"%string]
              ["Brunch"%string; "Tea"%string])
    as (st1 & st2 & H1 & H2 & Hsub & _ & _ & _ & Hsize).
  exists st1, st2. split; [exact H1|]. split; [exact H2|].
  split; [exact Hsub | exact (Hsize Hnd)].
Defined.

(** * Rotation equivalence *)

(** C4. The rotation check holds between a table and each of its rotations,
    in both argument orders; it fails for tables of different lengths and for
    tables that do not seat the same names (the same people, when no two
    people share a name); it holds for two empty tables. *)
Theorem rotation_equivalence (arr1 arr2 : list Person) (k : nat) :
  are_arrangements_same arr1 (rotate k arr1) = true ∧
  are_arrangements_same (rotate k arr1) arr1 = true ∧
  (length arr1 ≠ length arr2 → are_arrangements_same arr1 arr2 = false) ∧
  (list_to_set (name <$> arr1) ≠@{gset string} list_to_set (name <$> arr2) →
   are_arrangements_same arr1 arr2 = false) ∧
  ((∀ x y, x ∈ arr1 ++ arr2 → y ∈ arr1 ++ arr2 → name x = name y → x = y) →
   ¬ (∀ p, p ∈ arr1 ↔ p ∈ arr2) →
   are_arrangements_same arr1 arr2 = false) ∧
  are_arrangements_same [] [] = true.
Proof.
  split; [apply are_arrangements_same_rotate_r|].
  split; [apply are_arrangements_same_rotate_l|].
  split.
  { intros Hlen. apply not_true_is_false.
    intros Hsame. apply are_arrangements_same_spec in Hsame. by destruct Hsame. }
  split.
  { intros Hne. apply not_true_is_false. intros Hsame. apply Hne.
    apply set_eq. intros x. rewrite !elem_of_list_to_set.
    by apply are_arrangements_same_names. }
  split; [|done].
  intros Hinj Hne. apply not_true_is_false. intros Hsame. apply Hne.
  pose proof (are_arrangements_same_names _ _ Hsame) as Hnames.
  intros p. split; intros Hp.
  - assert (name p ∈ name <$> arr2) as Hq.
    { apply Hnames, list_elem_of_fmap. eauto. }
    apply list_elem_of_fmap in Hq as (q & Hq & Hin).
    rewrite (Hinj p q); [done | | | done]; apply elem_of_app; auto.
  - assert (name p ∈ name <$> arr1) as Hq.
    { apply Hnames, list_elem_of_fmap. eauto. }
    apply list_elem_of_fmap in Hq as (q & Hq & Hin).
    rewrite (Hinj p q); [done | | | done]; apply elem_of_app; auto.
Qed.

Lemma rotation_equivalence_witness :
  are_arrangements_same [carol; dave; erin] [dave; erin; carol] = true ∧
  are_arrangements_same [carol; dave; erin] [alice; bob] = false ∧
  are_arrangements_same [carol; dave; erin] [carol; dave; grace] = false.
Proof.
  destruct (rotation_equivalence [carol; dave; erin] [alice; bob] 1)
    as (Hrot & _ & Hlen & _).
  destruct (rotation_equivalence [carol; dave; erin] [carol; dave; grace] 0)
    as (_ & _ & _ & Hnames & _).
  split; [exact Hrot|]. split.
  - apply Hlen. simpl. lia.
  - apply Hnames. intros Heq.
    assert ("Erin"%string ∈@{gset string}
              list_to_set (name <$> [carol; dave; grace])) as Hin.
    { rewrite <- Heq. vm_compute. reflexivity. }
    vm_compute in Hin. discriminate Hin.
Defined.

(** * Order of the search *)




(** * Scenarios *)

(** C6 (scenario C). A meal of exactly three people of one sex: the search
    fails, whatever pairs are recorded, and planning that one meal gives it
    an empty plan. *)
Theorem three_of_one_sex `{PySet} (all_people_info : list Person)
    (meal_name : string) (a b c : Person) :
  attendees_of all_people_info meal_name = [a; b; c] →
  sex a = sex b → sex b = sex c →
  (∀ st, search_for_meal all_people_info st meal_name = Ok None) ∧
  seat_people all_people_info [meal_name] = Ok {[ meal_name := [] ]}.
Proof.
  intros Ha Hab Hbc.
  assert (∀ st, search_for_meal all_people_info st meal_name = Ok None) as Hs.
  { intros st. apply all_same_sex_fail; rewrite Ha; [simpl; lia|].
    intros x y Hx Hy.
    repeat (apply elem_of_cons in Hx as [->|Hx]);
      repeat (apply elem_of_cons in Hy as [->|Hy]);
      try congruence; by apply elem_of_nil in Hx || by apply elem_of_nil in Hy. }
  split; [done|].
  unfold seat_people, seat_people_run. simpl.
  rewrite seat_meal_fails; [done | rewrite Ha; simpl; lia | done].
Qed.

Lemma three_of_one_sex_witness :
  attendees_of guests "Tea" = [carol; erin; grace] ∧
  @search_for_meal insertion_order guests after_lunch "Tea" = Ok None ∧
  @seat_people insertion_order guests ["Tea"%string] = Ok {[ "Tea"%string := [] ]}.
Proof.
  destruct (@three_of_one_sex insertion_order guests "Tea" carol erin grace)
    as (Hsearch & Hplan); [reflexivity | reflexivity | reflexivity |].
  split; [reflexivity|]. split; [apply Hsearch | exact Hplan].
Defined.

(** C10. A meal of exactly two people of one sex: the search always fails. *)
Theorem two_of_one_sex `{PySet} (all_people_info : list Person)
    (st : planner) (meal_name : string) (a b : Person) :
  attendees_of all_people_info meal_name = [a; b] →
  sex a = sex b →
  search_for_meal all_people_info st meal_name = Ok None.
Proof.
  intros Ha Hab. apply all_same_sex_fail; rewrite Ha; [simpl; lia|].
  intros x y Hx Hy.
  repeat (apply elem_of_cons in Hx as [->|Hx]);
    repeat (apply elem_of_cons in Hy as [->|Hy]);
    try congruence; by apply elem_of_nil in Hx || by apply elem_of_nil in Hy.
Qed.

Lemma two_of_one_sex_witness :
  attendees_of guests "Supper" = [bob; dave] ∧
  @search_for_meal insertion_order guests planner_start "Supper" = Ok None.
Proof.
  split; [reflexivity|].
  apply (@two_of_one_sex insertion_order guests planner_start "Supper" bob dave);
    reflexivity.
Defined.

(** * Errors and partial results *)

(** C7. Building a [Person] whose sex is neither ['male'] nor ['female']
    raises (a [ValueError]); with one of the two it returns the person. *)
Theorem person_init_sex (addr : nat) (name sex : string)
    (relations preferred meals : list string) :
  (sex ≠ "male"%string → sex ≠ "female"%string →
   Person_init addr name sex relations preferred meals = Raise ValueError) ∧
  (sex = "male"%string ∨ sex = "female"%string →
   Person_init addr name sex relations preferred meals
   = Ok (mkPerson addr name sex relations preferred meals)).
Proof.
  unfold Person_init. split.
  - intros Hm Hf. rewrite bool_decide_eq_false_2; [done|].
    rewrite !elem_of_cons, elem_of_nil. tauto.
  - intros Hs. rewrite bool_decide_eq_true_2; [done|].
    rewrite !elem_of_cons. tauto.
Qed.

Lemma person_init_sex_witness :
  Person_init 7 "Sam" "other" [] [] ["Lunch"%string] = Raise ValueError ∧
  Person_init 1 "Alice" "female" [] [] ["Lunch"%string; "Dinner"%string]
  = Ok alice.
Proof.
  split.
  - apply (person_init_sex 7 "Sam" "other" [] [] ["Lunch"%string]); discriminate.
  - apply (person_init_sex 1 "Alice" "female" [] []
             ["Lunch"%string; "Dinner"%string]).
    right. reflexivity.
Defined.

(** C8 as the specification words it fails when a meal is named twice in
    the list: the second search for [Lunch] fails, the meal has two people,
    and the plan found the first time stays the entry of the meal. *)
Lemma failed_search_keeps_entry :
  (st ← @seat_people_run insertion_order [alice; bob] ["Lunch"%string];
   found ← @search_for_meal insertion_order [alice; bob] st "Lunch";
   st' ← @seat_meal insertion_order [alice; bob] st "Lunch";
   Ok (length (attendees_of [alice; bob] "Lunch"), found,
       final_seating_arrangements st' !! "Lunch"%string))
  = Ok (2, None, Some [[alice; bob]]).
Proof. vm_compute. reflexivity. Qed.

(** C8 (partial results), amended. When the search fails for a meal of at
    least two people, the turn of that meal ends normally: the meal keeps
    the entry it already has, or gets an empty one if it has none; no other
    entry changes; the set of seated neighbour pairs is unchanged; and the
    run goes on with the remaining meals and returns. *)
Theorem failed_search_policy `{PySet} (all_people_info : list Person)
    (st : planner) (meal_name : string) (rest : list string) :
  2 ≤ length (attendees_of all_people_info meal_name) →
  search_for_meal all_people_info st meal_name = Ok None →
  ∃ st' final,
    seat_meal all_people_info st meal_name = Ok st' ∧
    final_seating_arrangements st' !! meal_name
    = Some (default [] (final_seating_arrangements st !! meal_name)) ∧
    (∀ other, other ≠ meal_name →
       final_seating_arrangements st' !! other
       = final_seating_arrangements st !! other) ∧
    all_seated_neighbour_pairs_globally st'
    = all_seated_neighbour_pairs_globally st ∧
    seat_meals all_people_info rest st' = Ok final ∧
    seat_meals all_people_info (meal_name :: rest) st = Ok final.
Proof.
  intros Hn Hs.
  pose proof (seat_meal_fails all_people_info st meal_name Hn Hs) as Hst.
  destruct (seat_meals_returns all_people_info rest
              (mkPlanner
                 (match final_seating_arrangements st !! meal_name with
                  | None => <[meal_name := []]> (final_seating_arrangements st)
                  | Some _ => final_seating_arrangements st
                  end)
                 (all_seated_neighbour_pairs_globally st)
                 (printed st ++ [mkReport meal_name
                                   (length (attendees_of all_people_info meal_name))
                                   NoPlanFound])))
    as [final Hfinal].
  eexists _, final. split; [exact Hst|]. simpl. split_and!.
  - destruct (final_seating_arrangements st !! meal_name) eqn:E; simpl;
      [done | by rewrite lookup_insert_eq].
  - intros other Hne.
    destruct (final_seating_arrangements st !! meal_name); [done|].
    by rewrite lookup_insert_ne.
  - done.
  - exact Hfinal.
  - by rewrite Hst.
Qed.

Lemma failed_search_policy_witness :
  2 ≤ length (attendees_of guests "Supper") ∧
  @search_for_meal insertion_order guests planner_start "Supper" = Ok None ∧
  ∃ st' final,
    @seat_meal insertion_order guests planner_start "Supper" = Ok st' ∧
    final_seating_arrangements st' !! "Supper"%string = Some [] ∧
    all_seated_neighbour_pairs_globally st' = ∅ ∧
    @seat_meals insertion_order guests ["Supper"%string; "Dinner"%string]
      planner_start = Ok final.
Proof.
  assert (2 ≤ length (attendees_of guests "Supper")) as Hn.
  { vm_compute. lia. }
  assert (@search_for_meal insertion_order guests planner_start "Supper"
          = Ok None) as Hs.
  { vm_compute. reflexivity. }
  split; [exact Hn|]. split; [exact Hs|].
  destruct (@failed_search_policy insertion_order guests planner_start
              "Supper" ["Dinner"%string] Hn Hs)
    as (st' & final & Hst' & Hentry & _ & Hpairs & _ & Hrun).
  exists st', final. split; [exact Hst'|]. split; [exact Hentry|].
  split; [exact Hpairs | exact Hrun].
Defined.

(** C9 (empty and single meals). For every meal of the list, the run ends
    with an empty entry for a meal without people and with the one-person
    plan for a meal of one person. The turn of such a meal never reads the
    set of seated neighbour pairs and leaves it as it is. *)
Theorem empty_and_single_meals `{PySet} (all_people_info : list Person)
    (meal_names_list : list string) (meal_name : string) :
  meal_name ∈ meal_names_list →
  length (attendees_of all_people_info meal_name) ≤ 1 →
  (∃ plans,
     seat_people all_people_info meal_names_list = Ok plans ∧
     plans !! meal_name
     = Some (match attendees_of all_people_info meal_name with
             | [] => []
             | attendees_this_meal => [attendees_this_meal]
             end)) ∧
  (∀ st, ∃ st',
     seat_meal all_people_info st meal_name = Ok st' ∧
     all_seated_neighbour_pairs_globally st'
     = all_seated_neighbour_pairs_globally st ∧
     ∀ pairs,
       seat_meal all_people_info
         (mkPlanner (final_seating_arrangements st) pairs (printed st))
         meal_name
       = Ok (mkPlanner (final_seating_arrangements st') pairs (printed st'))).
Proof.
  intros Hin Hn. split.
  - destruct (seat_meals_returns all_people_info meal_names_list planner_start)
      as [st Hst].
    exists (final_seating_arrangements st).
    unfold seat_people, seat_people_run. rewrite Hst. split; [done|].
    eapply seat_meals_fixed_entry; [|exact Hst|by left].
    intros s s'.
    destruct (attendees_of all_people_info meal_name) as [|p [|q l]] eqn:Ha.
    + rewrite seat_meal_no_one by done. intros [= <-]. simpl.
      by rewrite lookup_insert_eq.
    + rewrite (seat_meal_only_one _ _ _ p) by done. intros [= <-]. simpl.
      by rewrite lookup_insert_eq.
    + simpl in Hn. lia.
  - intros st.
    destruct (attendees_of all_people_info meal_name) as [|p [|q l]] eqn:Ha.
    + eexists. split; [by apply seat_meal_no_one|]. split; [done|].
      intros pairs. by rewrite seat_meal_no_one.
    + eexists. split; [by apply (seat_meal_only_one _ _ _ p)|]. split; [done|].
      intros pairs. by rewrite (seat_meal_only_one _ _ _ p).
    + simpl in Hn. lia.
Qed.

Lemma empty_and_single_meals_witness :
  ("Alone"%string ∈ ["Lunch"%string; "Alone"%string; "Nobody"%string]) ∧
  length (attendees_of guests "Alone") ≤ 1 ∧
  ∃ plans,
    @seat_people insertion_order guests
      ["Lunch"%string; "Alone"%string; "Nobody"%string] = Ok plans ∧
    plans !! "Alone"%string = Some [[grace]].
Proof.
  assert ("Alone"%string ∈ ["Lunch"%string; "Alone"%string; "Nobody"%string])
    as Hin.
  { apply elem_of_cons. right. apply elem_of_cons. left. reflexivity. }
  assert (length (attendees_of guests "Alone") ≤ 1) as Hn.
  { vm_compute. lia. }
  split; [exact Hin|]. split; [exact Hn|].
  destruct (@empty_and_single_meals insertion_order guests
              ["Lunch"%string; "Alone"%string; "Nobody"%string] "Alone" Hin Hn)
    as [Hplans _].
  exact Hplans.
Defined.

(** * Further properties of the rotation check *)

Lemma rotate_rotate {A} (l : list A) (j k : nat) :
  rotate k (rotate j l) = rotate (j + k) l.
Proof.
  apply (list_eq_same_length _ _ (length l)); rewrite ?length_rotate; [done..|].
  intros i x y Hi Hx Hy.
  rewrite lookup_rotate_mod in Hx by (by rewrite length_rotate).
  rewrite length_rotate in Hx.
  rewrite lookup_rotate_mod in Hx by (apply Nat.mod_upper_bound; lia).
  rewrite lookup_rotate_mod in Hy by done.
  rewrite Nat.Div0.add_mod_idemp_r, Nat.add_assoc in Hx. congruence.
Qed.

Lemma rotate_full {A} (l : list A) (k : nat) :
  k mod length l = 0 → rotate k l = l.
Proof.
  intros Hk. unfold rotate. rewrite Hk. simpl. by rewrite app_nil_r.
Qed.

Lemma rotate_undo {A} (l : list A) (k : nat) :
  rotate (length l - k mod length l) (rotate k l) = l.
Proof.
  destruct (decide (length l = 0)) as [Hz|Hz].
  { apply length_zero_iff_nil in Hz. subst. unfold rotate.
    by rewrite !drop_nil, !take_nil. }
  rewrite rotate_rotate. apply rotate_full.
  pose proof (Nat.mod_upper_bound k (length l) Hz).
  rewrite <- Nat.Div0.add_mod_idemp_l.
  replace (k mod length l + (length l - k mod length l)) with (length l) by lia.
  apply Nat.Div0.mod_same.
Qed.

Lemma are_arrangements_same_iff_rotate (arr1 arr2 : list Person) :
  are_arrangements_same arr1 arr2 = true ↔
  ∃ k, name <$> arr1 = rotate k (name <$> arr2).
Proof.
  rewrite are_arrangements_same_spec. split.
  - intros [Hlen [-> | (s & Hs & H)]].
    { symmetry in Hlen. apply length_zero_iff_nil in Hlen. subst. by exists 0. }
    exists s. apply (list_eq_same_length _ _ (length arr1)).
    + by rewrite length_rotate, length_fmap.
    + by rewrite length_fmap.
    + intros i x y Hi Hx Hy.
      rewrite lookup_rotate_mod in Hy by (rewrite length_fmap; lia).
      rewrite length_fmap, <- Hlen, list_lookup_fmap in Hy.
      rewrite list_lookup_fmap in Hx.
      destruct (H i Hi) as (a & b & Ha & Hb & E).
      rewrite Ha in Hx. rewrite Hb in Hy. simpl in *. congruence.
  - intros [k Hk].
    assert (length arr1 = length arr2) as Hlen.
    { apply (f_equal length) in Hk.
      by rewrite length_rotate, !length_fmap in Hk. }
    split; [done|]. destruct arr1 as [|p arr1]; [by left | right].
    set (n := length (p :: arr1)) in *.
    assert (0 < n) as Hn by (unfold n; simpl; lia).
    exists (k mod n). split; [rewrite <- Hlen; by apply Nat.mod_upper_bound; lia|].
    intros i Hi.
    destruct (lookup_lt_is_Some_2 (p :: arr1) i Hi) as [a Ha].
    destruct (lookup_lt_is_Some_2 arr2 ((k mod n + i) mod n)) as [b Hb].
    { rewrite <- Hlen. apply Nat.mod_upper_bound. lia. }
    exists a, b. split; [done|]. split; [done|].
    apply (f_equal (λ l, l !! i)) in Hk.
    rewrite lookup_rotate_mod in Hk by (rewrite length_fmap; lia).
    rewrite length_fmap, <- Hlen, !list_lookup_fmap in Hk. fold n in Hk.
    rewrite Nat.Div0.add_mod_idemp_l in Hb.
    rewrite Ha, Hb in Hk. simpl in Hk. congruence.
Qed.

(** X1. The rotation check holds exactly when the names of the first table,
    read in order, are the names of the second table read from some seat
    on. *)
Theorem rotation_check_exact (arr1 arr2 : list Person) :
  are_arrangements_same arr1 arr2 = true ↔
  ∃ k, name <$> arr1 = rotate k (name <$> arr2).
Proof. apply are_arrangements_same_iff_rotate. Qed.

(** X2. The rotation check is an equivalence on tables: it holds between a
    table and itself, in both directions or in none, and it chains. *)
Theorem rotation_check_equivalence (arr1 arr2 arr3 : list Person) :
  are_arrangements_same arr1 arr1 = true ∧
  are_arrangements_same arr1 arr2 = are_arrangements_same arr2 arr1 ∧
  (are_arrangements_same arr1 arr2 = true →
   are_arrangements_same arr2 arr3 = true →
   are_arrangements_same arr1 arr3 = true).
Proof.
  assert (∀ a b, are_arrangements_same a b = true →
                 are_arrangements_same b a = true) as Hsym.
  { intros a b [k Hk]%are_arrangements_same_iff_rotate. apply are_arrangements_same_iff_rotate.
    exists (length (name <$> b) - k mod length (name <$> b)).
    by rewrite Hk, rotate_undo. }
  split; [|split].
  - apply are_arrangements_same_iff_rotate. exists 0. symmetry. apply rotate_full.
    apply Nat.Div0.mod_0_l.
  - destruct (are_arrangements_same arr1 arr2) eqn:E12,
      (are_arrangements_same arr2 arr1) eqn:E21; try done.
    + apply Hsym in E12. congruence.
    + apply Hsym in E21. congruence.
  - intros [k Hk]%are_arrangements_same_iff_rotate [j Hj]%are_arrangements_same_iff_rotate.
    apply are_arrangements_same_iff_rotate. exists (j + k).
    by rewrite Hk, Hj, rotate_rotate.
Qed.

Lemma rotation_check_equivalence_witness :
  are_arrangements_same [carol; dave; erin] [dave; erin; carol] = true ∧
  are_arrangements_same [dave; erin; carol] [erin; carol; dave] = true ∧
  are_arrangements_same [carol; dave; erin] [erin; carol; dave] = true.
Proof.
  destruct (rotation_check_equivalence [carol; dave; erin] [dave; erin; carol]
              [erin; carol; dave]) as (_ & _ & Htrans).
  assert (are_arrangements_same [carol; dave; erin] [dave; erin; carol] = true)
    as H12 by reflexivity.
  assert (are_arrangements_same [dave; erin; carol] [erin; carol; dave] = true)
    as H23 by reflexivity.
  split; [exact H12|]. split; [exact H23 | exact (Htrans H12 H23)].
Defined.

(** X3. A table of three or more people with distinct names is not the same
    as its mirror image: the check compares in one direction only. *)
Theorem mirror_image_differs (arr : list Person) :
  3 ≤ length arr → NoDup (name <$> arr) →
  are_arrangements_same arr (reverse arr) = false.
Proof.
  intros Hn Hnd. apply not_true_is_false.
  intros (_ & [-> | (s & Hs & H)])%are_arrangements_same_spec;
    [simpl in Hn; lia|].
  rewrite length_reverse in Hs.
  assert (∀ i, i < length arr →
               i = length arr - S ((s + i) mod length arr)) as Hidx.
  { intros i Hi. destruct (H i Hi) as (a & b & Ha & Hb & E).
    rewrite reverse_lookup in Hb by (apply Nat.mod_upper_bound; lia).
    apply (proj1 (NoDup_alt _) Hnd _ _ (name a)).
    - by rewrite list_lookup_fmap, Ha.
    - by rewrite list_lookup_fmap, Hb, E. }
  pose proof (Hidx 0 ltac:(lia)) as H0.
  pose proof (Hidx 1 ltac:(lia)) as H1.
  rewrite Nat.add_0_r, Nat.mod_small in H0 by done.
  assert (s = length arr - 1) as -> by lia.
  replace (length arr - 1 + 1) with (length arr) in H1 by lia.
  rewrite Nat.Div0.mod_same in H1. lia.
Qed.

Lemma mirror_image_differs_witness :
  3 ≤ length [carol; dave; erin] ∧ NoDup (name <$> [carol; dave; erin]) ∧
  are_arrangements_same [carol; dave; erin] (reverse [carol; dave; erin]) = false.
Proof.
  assert (3 ≤ length [carol; dave; erin]) as Hn by (simpl; lia).
  assert (NoDup (name <$> [carol; dave; erin])) as Hnd.
  { apply (bool_decide_unpack (NoDup (name <$> [carol; dave; erin]))).
    vm_compute. exact I. }
  split; [exact Hn|]. split; [exact Hnd|].
  exact (mirror_image_differs [carol; dave; erin] Hn Hnd).
Defined.

(** * Further properties of the search *)

Lemma links_app (l1 l2 : list Person) :
  links (l1 ++ l2) = links l1 ++ match last l1 with
                                 | Some q => links (q :: l2)
                                 | None => links l2
                                 end.
Proof.
  induction l1 as [|a l1 IH]; [done|].
  destruct l1 as [|b l1]; [done|].
  change (links ((a :: b :: l1) ++ l2)) with ((a, b) :: links ((b :: l1) ++ l2)).
  rewrite IH. by rewrite last_cons_cons.
Qed.

Lemma dedup_pid_id (l : list Person) : NoDup (pid <$> l) → dedup_pid l = l.
Proof.
  induction l as [|p l IH]; [done|]. simpl.
  intros [Hp Hl]%NoDup_cons. rewrite IH by done. f_equal.
  clear IH Hl. induction l as [|q l IHl]; [done|].
  rewrite filter_cons_True.
  - f_equal. apply IHl. intros Hin. apply Hp. simpl. by right.
  - intros E. apply Hp. simpl. rewrite E. by left.
Qed.

Lemma try_person_allowed (pairs : ledger) (used : bool) (lst : option Person)
    (p : Person) :
  (∀ q, lst = Some q →
        (pair_of q p ∉ pairs) ∧ (same_sex q p = true → used = false)) →
  ∃ score,
    try_person pairs used lst p
    = Some (score, p, match lst with
                      | Some q => same_sex q p
                      | None => false
                      end).
Proof.
  intros Hok. unfold try_person. destruct lst as [q|]; [|eauto].
  destruct (Hok q eq_refl) as [Hfresh Hsex].
  rewrite bool_decide_eq_false_2 by done. simpl.
  destruct (same_sex q p); simpl; [rewrite Hsex by done; simpl|]; eauto.
Qed.

Lemma try_candidates_some (f : candidate → res (option (list Person)))
    (cands : list candidate) (c : candidate) (x : Person) (l : list Person) :
  (∀ d, d ∈ cands → ∃ r, f d = Ok r) →
  c ∈ cands → f c = Ok (Some (x :: l)) →
  ∃ arr, try_candidates f cands = Ok (Some arr).
Proof.
  intros Hall Hc Hfc. induction cands as [|d cands IH];
    [by apply elem_of_nil in Hc|].
  simpl. destruct (Hall d) as [r Hr]; [by left|]. rewrite Hr. simpl.
  destruct (decide (c = d)) as [<-|Hne].
  { rewrite Hfc in Hr. injection Hr as <-. eauto. }
  apply elem_of_cons in Hc as [?|Hc]; [done|].
  destruct r as [[|y k]|]; eauto; apply IH; auto; intros; apply Hall; by right.
Qed.

Section completeness.
Context `{PySet}.
Variable total : nat.
Variable prev : list (list Person).
Variable pairs : ledger.
Hypothesis total_pos : total ≠ 0.

(** From a row that a valid table extends, with the flag telling whether
    the row already has its same-sex pair, the search finds some table. *)
Lemma search_extends (rest : list Person) :
  ∀ (fuel : nat) (current remaining : list Person) (used : bool),
    length (current ++ rest) = total →
    total - length current < fuel →
    NoDup (pid <$> current ++ rest) →
    remaining ≡ₚ rest →
    Nat.b2n used = same_sex_count (links current) →
    valid_plan pairs prev (current ++ rest) →
    ∃ arr,
      _find_arrangement_backtrack fuel current remaining total prev pairs used
      = Ok (Some arr).
Proof.
  induction rest as [|p rest IH];
    intros fuel current remaining used Hlen Hfuel Hnd Hrem Hused Hvalid;
    (destruct fuel as [|fuel]; [lia|]).
  - rewrite app_nil_r in *. simpl. rewrite bool_decide_eq_true_2 by done.
    destruct current as [|a current]; [simpl in Hlen; lia|].
    destruct (last (a :: current)) as [l|] eqn:Hl; [|by apply last_None in Hl].
    destruct Hvalid as (Hfresh & Hcount & Hrot).
    rewrite (neighbours_links _ a l) in Hfresh, Hcount by done.
    apply Forall_app in Hfresh as [_ Hclose].
    apply Forall_inv in Hclose.
    rewrite same_sex_count_app in Hcount.
    unfold complete_arrangement. cbn [head]. rewrite Hl.
    rewrite bool_decide_eq_false_2 by exact Hclose.
    destruct (same_sex l a) eqn:Hs.
    + assert (used = false) as ->.
      { unfold same_sex_count in Hcount at 2.
        rewrite filter_cons_True in Hcount by done. simpl in Hcount.
        destruct used; simpl in Hused; [lia | done]. }
      simpl. rewrite Hrot. eauto.
    + simpl. rewrite Hrot. eauto.
  - assert (length current < total) as Hlt.
    { rewrite length_app in Hlen. simpl in Hlen. lia. }
    simpl. rewrite bool_decide_eq_false_2 by lia.
    assert (current ++ p :: rest = (current ++ [p]) ++ rest) as Happ
      by (by rewrite <- app_assoc).
    destruct Hvalid as (Hfresh & Hcount & Hrot).
    assert (Forall (λ ab, pair_names ab ∉ pairs) (links (current ++ [p])) ∧
            same_sex_count (links (current ++ [p])) ≤ 1) as [Hfresh' Hcount'].
    { destruct (current ++ p :: rest) as [|a arr] eqn:Harr.
      { by destruct current. }
      destruct (last (a :: arr)) as [l|] eqn:Hl; [|by apply last_None in Hl].
      rewrite (neighbours_links _ a l) in Hfresh, Hcount by done.
      rewrite Happ, links_app in Hfresh, Hcount.
      rewrite !same_sex_count_app in Hcount.
      apply Forall_app in Hfresh as [Hfresh _].
      apply Forall_app in Hfresh as [Hfresh _].
      split; [done | lia]. }
    rewrite links_snoc in Hfresh', Hcount'.
    apply Forall_app in Hfresh' as [_ Hlink].
    rewrite same_sex_count_app in Hcount'.
    destruct (try_person_allowed pairs used (last current) p) as [score Hc].
    { intros q Hq. rewrite Hq in Hlink, Hcount'.
      apply Forall_inv in Hlink. split; [done|]. intros Hs.
      unfold same_sex_count in Hcount' at 2.
      rewrite filter_cons_True in Hcount' by done. simpl in Hcount'.
      destruct used; simpl in Hused; [lia | done]. }
    set (v := match last current with
              | Some q => same_sex q p
              | None => false
              end) in *.
    assert (p ∈ remaining) as Hp by (rewrite Hrem; by left).
    destruct (IH fuel (current ++ [p]) (set_discard remaining p) (used || v))
      as [arr Harr].
    + by rewrite <- Happ.
    + rewrite length_app. simpl. lia.
    + by rewrite <- Happ.
    + rewrite set_discard_perm. apply (Permutation_cons_inv (a:=p)).
      rewrite discard_perm; [done | | done].
      rewrite Hrem. rewrite fmap_app in Hnd.
      by apply NoDup_app in Hnd as (_ & _ & ?).
    + rewrite links_snoc, same_sex_count_app, <- Hused. subst v.
      destruct (last current) as [q|]; simpl.
      * unfold same_sex_count. destruct (same_sex q p) eqn:Hs.
        -- rewrite filter_cons_True by done.
           unfold same_sex_count in Hcount' at 2.
           rewrite filter_cons_True in Hcount' by done. simpl in *.
           destruct used; simpl in *; lia.
        -- rewrite filter_cons_False
             by (unfold same_sex_pair; simpl; congruence).
           rewrite orb_false_r. simpl. lia.
      * rewrite orb_false_r. unfold same_sex_count. simpl. lia.
    + by rewrite <- Happ.
    + pose proof Harr as Hfound. apply search_found in Hfound
        as (_ & _ & _ & Hlen' & _).
      destruct arr as [|x l]; [simpl in Hlen'; lia|].
      apply (try_candidates_some _ _ (score, p, v) x l).
      * intros [[score' p'] v'] _. apply search_returns; [done| |];
          rewrite length_app; simpl; lia.
      * rewrite sort_by_score_perm. apply list_elem_of_omap. eauto.
      * exact Harr.
Qed.
End completeness.

Lemma search_for_meal_valid `{PySet} (all_people_info : list Person)
    (st : planner) (meal_name : string) (arr : list Person) :
  search_for_meal all_people_info st meal_name = Ok (Some arr) →
  valid_plan (all_seated_neighbour_pairs_globally st)
    (default [] (final_seating_arrangements st !! meal_name)) arr.
Proof.
  intros Hs. pose proof (search_for_meal_sound _ _ _ _ Hs) as [_ _ _ Hfresh Hcount].
  unfold search_for_meal in Hs.
  apply search_found in Hs as (_ & used' & _ & _ & Hc).
  apply complete_arrangement_found in Hc as (_ & _ & _ & _ & _ & _ & _ & Hrot).
  done.
Qed.

Lemma sound_plan_perm (pairs : ledger) (people arr : list Person) :
  sound_plan pairs people arr →
  arr ≡ₚ people ∧ NoDup (pid <$> people).
Proof.
  intros [Hlen Hin Hnd _ _].
  assert (arr ≡ₚ people) as Hperm.
  { apply submseteq_length_Permutation; [|lia].
    apply NoDup_submseteq; [by eapply NoDup_fmap_1 | done]. }
  split; [done|]. by rewrite <- Hperm.
Qed.

Lemma search_for_meal_succeeds_iff `{PySet} (all_people_info : list Person)
    (st : planner) (meal_name : string) :
  2 ≤ length (attendees_of all_people_info meal_name) →
  (∃ arr, search_for_meal all_people_info st meal_name = Ok (Some arr)) ↔
  (NoDup (pid <$> attendees_of all_people_info meal_name) ∧
   ∃ arr, arr ≡ₚ attendees_of all_people_info meal_name ∧
          valid_plan (all_seated_neighbour_pairs_globally st)
            (default [] (final_seating_arrangements st !! meal_name)) arr).
Proof.
  intros Hn. split.
  - intros [arr Hs].
    destruct (sound_plan_perm _ _ _ (search_for_meal_sound _ _ _ _ Hs))
      as [Hperm Hnd].
    split; [done|]. exists arr. split; [done|].
    by apply (search_for_meal_valid all_people_info).
  - intros (Hnd & arr & Hperm & Hvalid). unfold search_for_meal.
    apply (search_extends (length (attendees_of all_people_info meal_name))
             _ _ ltac:(lia) arr).
    + simpl. by rewrite Hperm.
    + simpl. lia.
    + simpl. by rewrite Hperm.
    + by rewrite set_of_list_perm, dedup_pid_id, Hperm.
    + done.
    + done.
Qed.

(** X4. A plan accepted for a meal seats every person of the meal exactly
    once; in particular no plan is accepted for a meal whose list of people
    holds the same object twice. *)
Theorem plan_seats_everyone_once `{PySet} (all_people_info : list Person)
    (st : planner) (meal_name : string) (arr : list Person) :
  accepts all_people_info st meal_name arr →
  arr ≡ₚ attendees_of all_people_info meal_name ∧
  NoDup (pid <$> attendees_of all_people_info meal_name).
Proof.
  intros (_ & _ & Hs). eapply sound_plan_perm.
  by apply search_for_meal_sound.
Qed.

Lemma brunch_accepts :
  @accepts insertion_order guests planner_start "Brunch" [carol; dave; erin].
Proof.
  split; [vm_compute; lia|]. split; [discriminate | vm_compute; reflexivity].
Defined.

Lemma plan_seats_everyone_once_witness :
  @accepts insertion_order guests planner_start "Brunch" [carol; dave; erin] ∧
  [carol; dave; erin] ≡ₚ attendees_of guests "Brunch".
Proof.
  split; [exact brunch_accepts|].
  exact (proj1 (@plan_seats_everyone_once insertion_order guests planner_start
                  "Brunch" [carol; dave; erin] brunch_accepts)).
Defined.

(** X5. For a meal of two or more people the search finds a plan exactly
    when no attendee is listed twice and some seating of all of them obeys
    the hard rules, and returns [None] exactly when that is not so: the
    backtracking misses no valid seating. *)
Theorem search_finds_plan_iff_one_exists `{PySet}
    (all_people_info : list Person) (st : planner) (meal_name : string) :
  2 ≤ length (attendees_of all_people_info meal_name) →
  ((∃ arr, search_for_meal all_people_info st meal_name = Ok (Some arr)) ↔
   (NoDup (pid <$> attendees_of all_people_info meal_name) ∧
    ∃ arr, arr ≡ₚ attendees_of all_people_info meal_name ∧
           valid_plan (all_seated_neighbour_pairs_globally st)
             (default [] (final_seating_arrangements st !! meal_name)) arr)) ∧
  (search_for_meal all_people_info st meal_name = Ok None ↔
   ¬ (NoDup (pid <$> attendees_of all_people_info meal_name) ∧
      ∃ arr, arr ≡ₚ attendees_of all_people_info meal_name ∧
             valid_plan (all_seated_neighbour_pairs_globally st)
               (default [] (final_seating_arrangements st !! meal_name)) arr)).
Proof.
  intros Hn.
  pose proof (search_for_meal_succeeds_iff all_people_info st meal_name Hn)
    as Hiff.
  split; [exact Hiff|]. rewrite <- Hiff.
  destruct (search_for_meal_returns all_people_info st meal_name Hn)
    as [[arr|] Hr]; rewrite Hr.
  - split; [discriminate|]. intros Hno. destruct Hno. eauto.
  - split; [|done]. intros _ [arr [=]].
Qed.

Lemma search_finds_plan_iff_one_exists_witness :
  2 ≤ length (attendees_of guests "Tea") ∧
  ¬ (NoDup (pid <$> attendees_of guests "Tea") ∧
     ∃ arr, arr ≡ₚ attendees_of guests "Tea" ∧ valid_plan ∅ [] arr).
Proof.
  assert (2 ≤ length (attendees_of guests "Tea")) as Hn by (vm_compute; lia).
  split; [exact Hn|].
  apply (proj2 (@search_finds_plan_iff_one_exists insertion_order guests
                  planner_start "Tea" Hn)).
  vm_compute. reflexivity.
Defined.

(** X6. Whether the search finds a plan for a meal does not depend on the
    order in which the set of remaining people is iterated; only which plan
    it finds does. *)
Theorem search_success_independent_of_set_order (S1 S2 : PySet)
    (all_people_info : list Person) (st : planner) (meal_name : string) :
  2 ≤ length (attendees_of all_people_info meal_name) →
  (∃ arr, @search_for_meal S1 all_people_info st meal_name = Ok (Some arr)) ↔
  (∃ arr, @search_for_meal S2 all_people_info st meal_name = Ok (Some arr)).
Proof.
  intros Hn.
  rewrite (@search_for_meal_succeeds_iff S1 all_people_info st meal_name Hn).
  by rewrite (@search_for_meal_succeeds_iff S2 all_people_info st meal_name Hn).
Qed.

Lemma search_success_independent_of_set_order_witness :
  2 ≤ length (attendees_of guests "Brunch") ∧
  ∃ arr, @search_for_meal reverse_order guests planner_start "Brunch"
         = Ok (Some arr).
Proof.
  assert (2 ≤ length (attendees_of guests "Brunch")) as Hn by (vm_compute; lia).
  split; [exact Hn|].
  apply (proj1 (search_success_independent_of_set_order insertion_order
                  reverse_order guests planner_start "Brunch" Hn)).
  exists [carol; dave; erin]. vm_compute. reflexivity.
Defined.

(** * Further properties of the planner *)

Lemma seat_meals_subseteq `{PySet} (all_people_info : list Person)
    (meal_names_list : list string) (st st' : planner) :
  seat_meals all_people_info meal_names_list st = Ok st' →
  all_seated_neighbour_pairs_globally st
    ⊆ all_seated_neighbour_pairs_globally st'.
Proof.
  intros Hrun.
  destruct (seat_meals_summary all_people_info meal_names_list st)
    as (st'' & _ & Hst'' & _ & _ & _ & Hsub & _).
  rewrite Hrun in Hst''. by injection Hst'' as <-.
Qed.

Lemma recorded_plan_length `{PySet} (all_people_info : list Person)
    (meal_names_list : list string) (st : planner) (meal_name : string)
    (arrs : list (list Person)) (arr : list Person) :
  seat_people_run all_people_info meal_names_list = Ok st →
  final_seating_arrangements st !! meal_name = Some arrs →
  arr ∈ arrs →
  arr ≡ₚ attendees_of all_people_info meal_name.
Proof.
  intros Hrun Hm Hin.
  destruct (recorded_plan_cases _ _ _ _ _ _ Hrun Hm Hin)
    as [[-> _]|(st0 & _ & _ & _ & _ & (_ & _ & Hs))]; [done|].
  eapply sound_plan_perm. by apply search_for_meal_sound.
Qed.

(** X7. Two plans accepted at different turns of a run have no pair of
    neighbours in common: nobody sits next to the same person at two
    meals. *)
Theorem accepted_plans_share_no_pair `{PySet} (all_people_info : list Person)
    (before between : list string) (meal1 meal2 : string)
    (st1 st2 : planner) (arr1 arr2 : list Person) (x : string * string) :
  seat_people_run all_people_info before = Ok st1 →
  accepts all_people_info st1 meal1 arr1 →
  seat_people_run all_people_info (before ++ meal1 :: between) = Ok st2 →
  accepts all_people_info st2 meal2 arr2 →
  x ∈ pair_names <$> neighbours arr1 →
  x ∉ pair_names <$> neighbours arr2.
Proof.
  intros Hrun1 Hacc1 Hrun2 (_ & _ & Hs2) Hx1 Hx2.
  unfold seat_people_run in *. rewrite seat_meals_app, Hrun1 in Hrun2.
  simpl in Hrun2. rewrite (seat_meal_accepts _ _ _ _ Hacc1) in Hrun2.
  simpl in Hrun2. apply seat_meals_subseteq in Hrun2. simpl in Hrun2.
  apply search_for_meal_sound in Hs2 as [_ _ _ Hfresh _].
  apply list_elem_of_fmap in Hx2 as (ab & -> & Hab).
  apply (proj1 (Forall_forall _ _) Hfresh ab Hab).
  apply Hrun2, elem_of_union. left. by apply elem_of_list_to_set.
Qed.

Lemma accepted_plans_share_no_pair_witness :
  @seat_people_run insertion_order guests ["Lunch"%string] = Ok after_lunch ∧
  @accepts insertion_order guests planner_start "Lunch" [alice; bob] ∧
  @accepts insertion_order guests after_lunch "Dinner" [alice; dave] ∧
  ("Alice"%string, "Bob"%string) ∉ pair_names <$> neighbours [alice; dave].
Proof.
  assert (@seat_people_run insertion_order guests [] = Ok planner_start)
    as Hrun1 by reflexivity.
  assert (@accepts insertion_order guests planner_start "Lunch" [alice; bob])
    as Hacc1.
  { split; [vm_compute; lia|]. split; [discriminate | vm_compute; reflexivity]. }
  assert (@seat_people_run insertion_order guests ([] ++ "Lunch"%string :: [])
          = Ok after_lunch) as Hrun2 by (vm_compute; reflexivity).
  assert (@accepts insertion_order guests after_lunch "Dinner" [alice; dave])
    as Hacc2.
  { split; [vm_compute; lia|]. split; [discriminate | vm_compute; reflexivity]. }
  split; [exact Hrun2|]. split; [exact Hacc1|]. split; [exact Hacc2|].
  apply (@accepted_plans_share_no_pair insertion_order guests [] [] "Lunch"
           "Dinner" planner_start after_lunch [alice; bob] [alice; dave]
           ("Alice"%string, "Bob"%string) Hrun1 Hacc1 Hrun2 Hacc2).
  apply elem_of_cons. left. reflexivity.
Defined.

Lemma ledger_is_recorded_pairs `{PySet} (all_people_info : list Person)
    (meal_names_list : list string) (st : planner) (x : string * string) :
  seat_people_run all_people_info meal_names_list = Ok st →
  x ∈ all_seated_neighbour_pairs_globally st ↔
  ∃ meal_name arrs arr,
    final_seating_arrangements st !! meal_name = Some arrs ∧ arr ∈ arrs ∧
    2 ≤ length arr ∧ x ∈ pair_names <$> neighbours arr.
Proof.
  revert st.
  induction meal_names_list as [|m meals IH] using rev_ind; intros st Hrun.
  { injection Hrun as <-. simpl. split; [by intros ?%not_elem_of_empty|].
    intros (m & arrs & arr & Hm & _). by rewrite lookup_empty in Hm. }
  pose proof Hrun as Hrun'.
  unfold seat_people_run in Hrun. rewrite seat_meals_app in Hrun.
  apply bind_Ok in Hrun as (st1 & Hst1 & Hlast). simpl in Hlast.
  apply bind_Ok in Hlast as (st2 & Hst2 & [= ->]).
  specialize (IH st1 Hst1).
  assert (∀ arrs arr, final_seating_arrangements st1 !! m = Some arrs →
                      arr ∈ arrs →
                      length arr = length (attendees_of all_people_info m))
    as Hlen.
  { intros arrs arr Hm Hin.
    by rewrite (recorded_plan_length _ _ _ _ _ _ Hst1 Hm Hin). }
  assert (∀ v,
            final_seating_arrangements st
            = <[m := v]> (final_seating_arrangements st1) →
            all_seated_neighbour_pairs_globally st
            = all_seated_neighbour_pairs_globally st1 →
            length (attendees_of all_people_info m) ≤ 1 ∨ v = [] →
            (∀ arr, arr ∈ v → length arr ≤ 1) →
            x ∈ all_seated_neighbour_pairs_globally st ↔
            ∃ meal_name arrs arr,
              final_seating_arrangements st !! meal_name = Some arrs ∧
              arr ∈ arrs ∧ 2 ≤ length arr ∧
              x ∈ pair_names <$> neighbours arr) as Hsame.
  { intros v HF HL Hfew Hv. rewrite HL, HF, IH. split.
    - intros (m0 & arrs & arr & Hm0 & Hin & H2 & Hx).
      destruct (decide (m0 = m)) as [->|Hne].
      + destruct (seat_meal_cases all_people_info st1 m)
          as [[Hn _]|[[Hn _]|[[Hn Hs]|[Hn [arr' Hacc]]]]].
        * rewrite (Hlen _ _ Hm0 Hin) in H2. lia.
        * rewrite (Hlen _ _ Hm0 Hin) in H2. lia.
        * rewrite seat_meal_fails in Hst2 by done. injection Hst2 as <-.
          simpl in HF. rewrite Hm0 in HF.
          exists m, arrs, arr. rewrite <- HF. done.
        * rewrite (seat_meal_accepts _ _ _ _ Hacc) in Hst2.
          injection Hst2 as <-. simpl in HL.
          destruct Hfew as [Hfew | ->]; [lia|].
          simpl in HF. apply (f_equal (λ F, F !! m)) in HF.
          rewrite !lookup_insert_eq in HF. injection HF as HF.
          by destruct (default [] _).
      + exists m0, arrs, arr. by rewrite lookup_insert_ne.
    - intros (m0 & arrs & arr & Hm0 & Hin & H2 & Hx).
      destruct (decide (m0 = m)) as [->|Hne].
      + rewrite lookup_insert_eq in Hm0. injection Hm0 as <-.
        specialize (Hv arr Hin). lia.
      + rewrite lookup_insert_ne in Hm0 by done. eauto 10. }
  revert Hst2.
  destruct (seat_meal_cases all_people_info st1 m)
    as [[Hn Ha]|[[Hn [p Ha]]|[[Hn Hs]|[Hn [arr' Hacc]]]]].
  - rewrite seat_meal_no_one by done. intros [= <-].
    apply (Hsame []); simpl; auto. intros arr Hin. by apply elem_of_nil in Hin.
  - rewrite (seat_meal_only_one _ _ _ p) by done. intros [= <-].
    apply (Hsame [[p]]); simpl; auto; [left; lia|].
    intros arr Hin. apply list_elem_of_singleton in Hin as ->. simpl. lia.
  - rewrite seat_meal_fails by done. intros [= <-].
    destruct (final_seating_arrangements st1 !! m) as [v|] eqn:Hv.
    + simpl. apply IH.
    + apply (Hsame []); simpl; auto.
      intros arr Hin. by apply elem_of_nil in Hin.
  - rewrite (seat_meal_accepts _ _ _ _ Hacc). intros [= <-]. simpl.
    destruct Hacc as (_ & _ & Hs').
    pose proof (search_for_meal_sound _ _ _ _ Hs') as [Hlen' _ _ _ _].
    rewrite elem_of_union, elem_of_list_to_set, IH. split.
    + intros [Hx|(m0 & arrs & arr & Hm0 & Hin & H2 & Hx)].
      * exists m, (default [] (final_seating_arrangements st1 !! m) ++ [arr']), arr'.
        rewrite lookup_insert_eq. split; [done|].
        split; [apply elem_of_app; right; by left|]. split; [lia | done].
      * destruct (decide (m0 = m)) as [->|Hne].
        -- exists m, (default [] (final_seating_arrangements st1 !! m) ++ [arr']), arr.
           rewrite lookup_insert_eq, Hm0. simpl. split; [done|].
           split; [apply elem_of_app; by left|]. done.
        -- exists m0, arrs, arr. by rewrite lookup_insert_ne.
    + intros (m0 & arrs & arr & Hm0 & Hin & H2 & Hx).
      destruct (decide (m0 = m)) as [->|Hne].
      * rewrite lookup_insert_eq in Hm0. injection Hm0 as <-.
        apply elem_of_app in Hin as [Hin|Hin];
          [|apply list_elem_of_singleton in Hin as ->; by left].
        right. destruct (final_seating_arrangements st1 !! m) as [v|] eqn:Hv;
          [|by apply elem_of_nil in Hin].
        exists m, v, arr. done.
      * rewrite lookup_insert_ne in Hm0 by done. right. eauto 10.
Qed.

(** X8. After a run, the set of seated neighbour pairs holds exactly the
    pairs of neighbours of the plans of two or more people in the returned
    dictionary. *)
Theorem ledger_holds_recorded_pairs `{PySet} (all_people_info : list Person)
    (meal_names_list : list string) (st : planner) (x : string * string) :
  seat_people_run all_people_info meal_names_list = Ok st →
  x ∈ all_seated_neighbour_pairs_globally st ↔
  ∃ meal_name arrs arr,
    final_seating_arrangements st !! meal_name = Some arrs ∧ arr ∈ arrs ∧
    2 ≤ length arr ∧ x ∈ pair_names <$> neighbours arr.
Proof. apply ledger_is_recorded_pairs. Qed.

Lemma ledger_holds_recorded_pairs_witness :
  @seat_people_run insertion_order guests ["Lunch"%string] = Ok after_lunch ∧
  ∃ meal_name arrs arr,
    final_seating_arrangements after_lunch !! meal_name = Some arrs ∧
    arr ∈ arrs ∧ 2 ≤ length arr ∧
    ("Alice"%string, "Bob"%string) ∈ pair_names <$> neighbours arr.
Proof.
  assert (@seat_people_run insertion_order guests ["Lunch"%string]
          = Ok after_lunch) as Hrun by (vm_compute; reflexivity).
  split; [exact Hrun|].
  apply (proj1 (@ledger_holds_recorded_pairs insertion_order guests
                  ["Lunch"%string] after_lunch
                  ("Alice"%string, "Bob"%string) Hrun)).
  vm_compute. reflexivity.
Defined.

Lemma seat_meal_dom `{PySet} (all_people_info : list Person)
    (st st' : planner) (meal_name : string) :
  seat_meal all_people_info st meal_name = Ok st' →
  dom (final_seating_arrangements st')
  = {[meal_name]} ∪ dom (final_seating_arrangements st).
Proof.
  destruct (seat_meal_cases all_people_info st meal_name)
    as [[Hn Ha]|[[Hn [p Ha]]|[[Hn Hs]|[Hn [arr Hacc]]]]].
  - rewrite seat_meal_no_one by done. intros [= <-]. simpl. apply dom_insert_L.
  - rewrite (seat_meal_only_one _ _ _ p) by done. intros [= <-]. simpl.
    apply dom_insert_L.
  - rewrite seat_meal_fails by done. intros [= <-]. simpl.
    destruct (final_seating_arrangements st !! meal_name) as [v|] eqn:Hv;
      [|apply dom_insert_L].
    apply set_eq. intros k. rewrite elem_of_union, elem_of_singleton.
    split; [auto|]. intros [->|?]; [|done]. apply elem_of_dom. eauto.
  - rewrite (seat_meal_accepts _ _ _ arr) by done. intros [= <-]. simpl.
    apply dom_insert_L.
Qed.

Lemma seat_meals_dom `{PySet} (all_people_info : list Person)
    (meal_names_list : list string) (st st' : planner) :
  seat_meals all_people_info meal_names_list st = Ok st' →
  dom (final_seating_arrangements st')
  = list_to_set meal_names_list ∪ dom (final_seating_arrangements st).
Proof.
  revert st. induction meal_names_list as [|m meals IH]; intros st Hrun.
  { injection Hrun as <-. simpl. by rewrite union_empty_l_L. }
  simpl in Hrun. apply bind_Ok in Hrun as (st1 & Hst1 & Hrun).
  rewrite (IH st1 Hrun), (seat_meal_dom _ _ _ _ Hst1), list_to_set_cons.
  rewrite union_assoc_L. f_equal. apply union_comm_L.
Qed.

(** X9. Whenever [seat_people] returns a dictionary, its keys are exactly
    the meal names it was given: every meal gets an entry, found plan or
    not, and no other key is added. *)
Theorem every_meal_gets_an_entry `{PySet} (all_people_info : list Person)
    (meal_names_list : list string)
    (plans : gmap string (list (list Person))) :
  seat_people all_people_info meal_names_list = Ok plans →
  dom plans = list_to_set meal_names_list.
Proof.
  unfold seat_people, seat_people_run.
  intros (st & Hst & [= <-])%bind_Ok.
  rewrite (seat_meals_dom _ _ _ _ Hst). simpl.
  by rewrite dom_empty_L, union_empty_r_L.
Qed.

Lemma every_meal_gets_an_entry_witness :
  ∃ plans,
    @seat_people insertion_order guests
      ["Lunch"%string; "Nobody"%string; "Lunch"%string] = Ok plans ∧
    dom plans = {[ "Lunch"%string; "Nobody"%string ]}.
Proof.
  destruct (@seat_people insertion_order guests
              ["Lunch"%string; "Nobody"%string; "Lunch"%string])
    as [plans|e] eqn:Hrun; [|vm_compute in Hrun; discriminate Hrun].
  exists plans. split; [reflexivity|].
  rewrite (@every_meal_gets_an_entry insertion_order _ _ plans Hrun).
  vm_compute. reflexivity.
Defined.

Lemma entry_length_bound `{PySet} (all_people_info : list Person)
    (meal_names_list : list string) (st : planner) (meal_name : string)
    (arrs : list (list Person)) :
  seat_people_run all_people_info meal_names_list = Ok st →
  final_seating_arrangements st !! meal_name = Some arrs →
  length arrs ≤ length (filter (λ m, m = meal_name) meal_names_list).
Proof.
  revert st arrs.
  induction meal_names_list as [|m meals IH] using rev_ind;
    intros st arrs Hrun Hm.
  { injection Hrun as <-. simpl in Hm. by rewrite lookup_empty in Hm. }
  unfold seat_people_run in Hrun. rewrite seat_meals_app in Hrun.
  apply bind_Ok in Hrun as (st1 & Hst1 & Hlast). simpl in Hlast.
  apply bind_Ok in Hlast as (st2 & Hst2 & [= ->]).
  rewrite filter_app, length_app.
  destruct (decide (meal_name = m)) as [->|Hne].
  2:{ rewrite (seat_meal_other all_people_info st1 st m meal_name) in Hm by done.
      specialize (IH st1 arrs Hst1 Hm). lia. }
  rewrite filter_cons_True by done. simpl.
  assert (∀ v, final_seating_arrangements st1 !! m = Some v →
               length v ≤ length (filter (λ m0, m0 = m) meals)) as Hold.
  { intros v Hv. by apply (IH st1). }
  revert Hst2.
  destruct (seat_meal_cases all_people_info st1 m)
    as [[Hn Ha]|[[Hn [p Ha]]|[[Hn Hs]|[Hn [arr' Hacc]]]]].
  - rewrite seat_meal_no_one by done. intros [= <-]. simpl in Hm.
    rewrite lookup_insert_eq in Hm. injection Hm as <-. simpl. lia.
  - rewrite (seat_meal_only_one _ _ _ p) by done. intros [= <-]. simpl in Hm.
    rewrite lookup_insert_eq in Hm. injection Hm as <-. simpl. lia.
  - rewrite seat_meal_fails by done. intros [= <-]. simpl in Hm.
    destruct (final_seating_arrangements st1 !! m) as [v|] eqn:Hv.
    + rewrite Hv in Hm. injection Hm as <-. specialize (Hold v eq_refl). lia.
    + rewrite lookup_insert_eq in Hm. injection Hm as <-. simpl. lia.
  - rewrite (seat_meal_accepts _ _ _ arr') by done. intros [= <-]. simpl in Hm.
    rewrite lookup_insert_eq in Hm. injection Hm as <-.
    rewrite length_app. simpl.
    destruct (final_seating_arrangements st1 !! m) as [v|] eqn:Hv; simpl.
    + specialize (Hold v eq_refl). lia.
    + lia.
Qed.

(** X10. Every plan in the returned dictionary seats exactly the people who
    attend its meal, each of them once; and a meal has at most as many
    plans as its name has occurrences in the list of meals, so that a meal
    named once has at most one plan, whatever the other names are. *)
Theorem recorded_plans_seat_the_attendees `{PySet}
    (all_people_info : list Person) (meal_names_list : list string)
    (plans : gmap string (list (list Person))) (meal_name : string)
    (arrs : list (list Person)) :
  seat_people all_people_info meal_names_list = Ok plans →
  plans !! meal_name = Some arrs →
  (∀ arr, arr ∈ arrs → arr ≡ₚ attendees_of all_people_info meal_name) ∧
  length arrs ≤ length (filter (λ m, m = meal_name) meal_names_list).
Proof.
  unfold seat_people. intros (st & Hrun & [= <-])%bind_Ok Hm. split.
  - intros arr Hin. by eapply recorded_plan_length.
  - by eapply entry_length_bound.
Qed.

Lemma recorded_plans_seat_the_attendees_witness :
  ∃ plans arrs,
    @seat_people insertion_order guests
      ["Brunch"%string; "Lunch"%string; "Lunch"%string] = Ok plans ∧
    plans !! "Brunch"%string = Some arrs ∧
    (∀ arr, arr ∈ arrs → arr ≡ₚ attendees_of guests "Brunch") ∧
    length arrs ≤ 1.
Proof.
  destruct (@seat_people insertion_order guests
              ["Brunch"%string; "Lunch"%string; "Lunch"%string])
    as [plans|e] eqn:Hrun; [|vm_compute in Hrun; discriminate Hrun].
  destruct (plans !! "Brunch"%string) as [arrs|] eqn:Harrs.
  - exists plans, arrs. split; [reflexivity|]. split; [exact Harrs|].
    exact (@recorded_plans_seat_the_attendees insertion_order guests
             ["Brunch"%string; "Lunch"%string; "Lunch"%string] plans
             "Brunch" arrs Hrun Harrs).
  - assert ((plans ← @seat_people insertion_order guests
                        ["Brunch"%string; "Lunch"%string; "Lunch"%string];
             Ok (plans !! "Brunch"%string)) = Ok None) as Hnone.
    { rewrite Hrun. simpl. by rewrite Harrs. }
    vm_compute in Hnone. discriminate Hnone.
Defined.

(** X11. In a search called by [seat_people] the test against the plans
    already found for the meal never rejects a table: a table of two or
    more people none of whose neighbour pairs is recorded is no rotation of
    a plan the meal already has. *)
Theorem rotation_test_never_rejects `{PySet} (all_people_info : list Person)
    (meal_names_list : list string) (st : planner) (meal_name : string)
    (arr : list Person) :
  seat_people_run all_people_info meal_names_list = Ok st →
  2 ≤ length arr →
  Forall (λ ab, pair_names ab ∉ all_seated_neighbour_pairs_globally st)
    (neighbours arr) →
  existsb (are_arrangements_same arr)
    (default [] (final_seating_arrangements st !! meal_name)) = false.
Proof.
  intros Hrun Hn Hfresh. apply not_true_is_false. intros Hex.
  apply existsb_exists in Hex as (old & Hin & Hsame).
  destruct (final_seating_arrangements st !! meal_name) as [arrs|] eqn:Hm;
    [|done].
  simpl in Hin. apply list_elem_of_In in Hin.
  apply are_arrangements_same_spec in Hsame as [Hlen [->|(s & Hs & Hidx)]];
    [simpl in Hn; lia|].
  destruct (Hidx 0) as (a0 & b0 & Ha0 & Hb0 & E0); [lia|].
  destruct (Hidx 1) as (a1 & b1 & Ha1 & Hb1 & E1); [lia|].
  rewrite Nat.add_0_r in Hb0.
  assert ((a0, a1) ∈ neighbours arr) as Hab.
  { apply (neighbours_lookup arr 0); [done|].
    by rewrite Nat.mod_small by lia. }
  assert ((b0, b1) ∈ neighbours old) as Hold.
  { apply (neighbours_lookup old (s mod length arr)); [done|].
    by rewrite <- Hlen, Nat.Div0.add_mod_idemp_l. }
  apply (proj1 (Forall_forall _ _) Hfresh (a0, a1) Hab).
  apply (ledger_is_recorded_pairs _ _ _ _ Hrun).
  exists meal_name, arrs, old. split; [done|]. split; [done|].
  split; [lia|]. apply list_elem_of_fmap. exists (b0, b1). split; [|done].
  unfold pair_names, pair_of. simpl. by rewrite E0, E1.
Qed.

Lemma rotation_test_never_rejects_witness :
  @seat_people_run insertion_order guests ["Lunch"%string] = Ok after_lunch ∧
  existsb (are_arrangements_same [carol; erin])
    (default [] (final_seating_arrangements after_lunch !! "Lunch"%string))
  = false.
Proof.
  assert (@seat_people_run insertion_order guests ["Lunch"%string]
          = Ok after_lunch) as Hrun by (vm_compute; reflexivity).
  split; [exact Hrun|].
  apply (@rotation_test_never_rejects insertion_order guests ["Lunch"%string]
           after_lunch "Lunch" [carol; erin] Hrun); [simpl; lia|].
  change (neighbours [carol; erin]) with [(carol, erin); (erin, carol)].
  repeat constructor; vm_compute; discriminate.
Defined.

(** * Further properties of the scores *)

Lemma try_person_score (pairs : ledger) (used : bool) (q p : Person)
    (c : candidate) :
  try_person pairs used (Some q) p = Some c →
  _get_candidate_score c
  = ((if c.2 then PENALTY_SEX_VIOLATION else 0)
     + (if is_related_to q p || is_related_to p q then PENALTY_RELATION else 0)
     + (if prefers q p || prefers p q then BONUS_PREFERRED else 0))%Z.
Proof.
  unfold try_person. case_bool_decide; simpl; [done|].
  destruct (same_sex q p); simpl; [destruct used; simpl; [done|]|];
    intros [= <-]; unfold _get_candidate_score; simpl;
    repeat case_match; lia.
Qed.

Lemma sorted_scores_lookup (l : list candidate) (i j : nat) (c d : candidate) :
  Sorted score_le l → i ≤ j → l !! i = Some c → l !! j = Some d →
  score_le c d.
Proof.
  intros Hs%Sorted_StronglySorted; [|apply _].
  revert i j. induction Hs as [|x l Hl IH Hx]; intros i j Hij Hi Hj; [done|].
  destruct i as [|i], j as [|j]; simpl in *.
  - injection Hi as <-. injection Hj as <-. unfold score_le. lia.
  - injection Hi as <-. apply (proj1 (Forall_forall _ _) Hx).
    apply list_elem_of_lookup. eauto.
  - lia.
  - apply (IH i j); [lia | done | done].
Qed.

(** X12. Among the candidates to follow the person seated last, everyone
    who prefers that person, or whom that person prefers, is tried before
    everyone else: the bonus outweighs both penalties together. *)
Theorem preferred_candidates_tried_first (pairs : ledger) (used : bool)
    (q : Person) (remaining : list Person) (i j : nat) (c d : candidate) :
  sort_by_score (possible_next_people pairs used (Some q) remaining) !! i
  = Some c →
  sort_by_score (possible_next_people pairs used (Some q) remaining) !! j
  = Some d →
  prefers q c.1.2 || prefers c.1.2 q = true →
  prefers q d.1.2 || prefers d.1.2 q = false →
  i < j.
Proof.
  intros Hi Hj Hc Hd.
  assert (∀ k e, sort_by_score (possible_next_people pairs used (Some q) remaining)
                   !! k = Some e →
                 try_person pairs used (Some q) e.1.2 = Some e) as Htry.
  { intros k e Hk.
    assert (e ∈ possible_next_people pairs used (Some q) remaining) as He.
    { rewrite <- sort_by_score_perm. apply list_elem_of_lookup. eauto. }
    apply list_elem_of_omap in He as (p & _ & Hp).
    pose proof (try_person_Some _ _ _ _ _ Hp) as (score & v & -> & _).
    done. }
  pose proof (try_person_score _ _ _ _ _ (Htry i c Hi)) as Hsc.
  pose proof (try_person_score _ _ _ _ _ (Htry j d Hj)) as Hsd.
  rewrite Hc in Hsc. rewrite Hd in Hsd.
  destruct (decide (i < j)) as [|Hge]; [done|]. exfalso.
  pose proof (sorted_scores_lookup _ j i d c (sort_by_score_sorted _)
                ltac:(lia) Hj Hi) as Hle.
  unfold score_le in Hle. rewrite Hsc, Hsd in Hle.
  unfold PENALTY_SEX_VIOLATION, PENALTY_RELATION, BONUS_PREFERRED in Hle.
  repeat case_match; lia.
Qed.

(** X13. Whether a person may be seated next after another, the score of
    doing so and whether it uses the same-sex pair are the same in both
    orders of the two people. *)
Theorem hard_rules_and_score_symmetric (pairs : ledger) (used : bool)
    (q p : Person) (score : Z) (v : bool) :
  try_person pairs used (Some q) p = Some (score, p, v) ↔
  try_person pairs used (Some p) q = Some (score, q, v).
Proof.
  assert (∀ a b, try_person pairs used (Some a) b = Some (score, b, v) →
                 try_person pairs used (Some b) a = Some (score, a, v)) as Hdir.
  { intros a b. unfold try_person. rewrite (pair_of_comm b a).
    assert (same_sex b a = same_sex a b) as ->.
    { unfold same_sex. apply bool_decide_ext. split; congruence. }
    rewrite (orb_comm (is_related_to b a)), (orb_comm (prefers b a)).
    case_bool_decide; simpl; [done|].
    destruct (same_sex a b); simpl; [destruct used; simpl; [done|]|];
      by intros [= <- <-]. }
  split; apply Hdir.
Qed.

Lemma preferred_candidates_tried_first_witness :
  sort_by_score (possible_next_people ∅ false (Some hana) [jack; ivan]) !! 0
  = Some ((-1000)%Z, ivan, false) ∧
  sort_by_score (possible_next_people ∅ false (Some hana) [jack; ivan]) !! 1
  = Some (100%Z, jack, false) ∧
  0 < 1.
Proof.
  assert (sort_by_score (possible_next_people ∅ false (Some hana) [jack; ivan])
            !! 0 = Some ((-1000)%Z, ivan, false)) as H0
    by (vm_compute; reflexivity).
  assert (sort_by_score (possible_next_people ∅ false (Some hana) [jack; ivan])
            !! 1 = Some (100%Z, jack, false)) as H1
    by (vm_compute; reflexivity).
  split; [exact H0|]. split; [exact H1|].
  apply (preferred_candidates_tried_first ∅ false hana [jack; ivan] 0 1
           ((-1000)%Z, ivan, false) (100%Z, jack, false) H0 H1);
    reflexivity.
Defined.

(** * The soft data never decide whether a meal gets a plan *)

Lemma attendees_of_forget_soft (people : list Person) (meal_name : string) :
  attendees_of (forget_soft <$> people) meal_name
  = forget_soft <$> attendees_of people meal_name.
Proof.
  unfold attendees_of. induction people as [|p people IH]; [done|].
  rewrite fmap_cons, !filter_cons. simpl.
  case_decide; by rewrite IH.
Qed.

Lemma neighbours_fmap (f : Person → Person) (arr : list Person) :
  neighbours (f <$> arr) = prod_map f f <$> neighbours arr.
Proof.
  unfold neighbours. rewrite length_fmap, list_fmap_omap.
  apply list_omap_ext, Forall_Forall2_diag, Forall_forall. intros i _.
  unfold neighbour_at. rewrite length_fmap, !list_lookup_fmap.
  destruct (arr !! i) as [a|]; simpl; [|done].
  by destruct (arr !! ((i + 1) mod length arr)).
Qed.

Lemma are_arrangements_same_names_l (arr1 arr1' arr2 : list Person) :
  name <$> arr1 = name <$> arr1' →
  are_arrangements_same arr1 arr2 = are_arrangements_same arr1' arr2.
Proof.
  intros Hn.
  destruct (are_arrangements_same arr1 arr2) eqn:E1,
    (are_arrangements_same arr1' arr2) eqn:E2; try done.
  - apply are_arrangements_same_iff_rotate in E1. rewrite Hn in E1.
    apply are_arrangements_same_iff_rotate in E1. congruence.
  - apply are_arrangements_same_iff_rotate in E2. rewrite <- Hn in E2.
    apply are_arrangements_same_iff_rotate in E2. congruence.
Qed.

Lemma valid_plan_forget_soft (pairs : ledger) (prev : list (list Person))
    (arr : list Person) :
  valid_plan pairs prev (forget_soft <$> arr) ↔ valid_plan pairs prev arr.
Proof.
  unfold valid_plan. rewrite neighbours_fmap.
  assert (Forall (λ ab, pair_names ab ∉ pairs)
            (prod_map forget_soft forget_soft <$> neighbours arr)
          ↔ Forall (λ ab, pair_names ab ∉ pairs) (neighbours arr)) as ->.
  { rewrite Forall_fmap. apply Forall_iff. by intros [a b]. }
  assert (same_sex_count (prod_map forget_soft forget_soft <$> neighbours arr)
          = same_sex_count (neighbours arr)) as ->.
  { unfold same_sex_count. induction (neighbours arr) as [|[a b] l IH]; [done|].
    rewrite fmap_cons, !filter_cons. simpl.
    change (same_sex_pair (forget_soft a, forget_soft b))
      with (same_sex_pair (a, b)).
    case_decide; simpl; by rewrite IH. }
  assert (existsb (are_arrangements_same (forget_soft <$> arr)) prev
          = existsb (are_arrangements_same arr) prev) as ->; [|done].
  induction prev as [|x prev IH]; [done|]. simpl. rewrite IH. f_equal.
  apply are_arrangements_same_names_l.
  rewrite <- list_fmap_compose. by apply list_fmap_ext.
Qed.

Lemma search_succeeds_forget_soft `{PySet} (people : list Person)
    (st : planner) (meal_name : string) :
  2 ≤ length (attendees_of people meal_name) →
  (∃ arr, search_for_meal people st meal_name = Ok (Some arr)) ↔
  (∃ arr, search_for_meal (forget_soft <$> people) st meal_name
          = Ok (Some arr)).
Proof.
  intros Hn.
  rewrite (search_for_meal_succeeds_iff people st meal_name Hn).
  rewrite (search_for_meal_succeeds_iff (forget_soft <$> people) st meal_name)
    by (by rewrite attendees_of_forget_soft, length_fmap).
  rewrite attendees_of_forget_soft, <- list_fmap_compose.
  apply and_iff_compat_l. split.
  - intros (arr & Hperm & Hvalid). exists (forget_soft <$> arr).
    split; [by rewrite Hperm|]. by apply valid_plan_forget_soft.
  - intros (arr' & Hperm & Hvalid).
    apply Permutation_map_inv in Hperm as (arr & -> & Hperm).
    exists arr. split; [done|]. by apply valid_plan_forget_soft.
Qed.

(** X14. Relations and preferences only order the candidates: two lists of
    people that differ in nothing but relations and preferences get a plan
    for the same meals, given the same planner state. *)
Theorem soft_data_never_decide `{PySet} (people1 people2 : list Person)
    (st : planner) (meal_name : string) :
  forget_soft <$> people1 = forget_soft <$> people2 →
  2 ≤ length (attendees_of people1 meal_name) →
  (∃ arr, search_for_meal people1 st meal_name = Ok (Some arr)) ↔
  (∃ arr, search_for_meal people2 st meal_name = Ok (Some arr)).
Proof.
  intros Hsame Hn.
  assert (2 ≤ length (attendees_of people2 meal_name)) as Hn2.
  { rewrite <- (length_fmap forget_soft), <- attendees_of_forget_soft, <- Hsame.
    by rewrite attendees_of_forget_soft, length_fmap. }
  rewrite (search_succeeds_forget_soft people1 st meal_name Hn).
  rewrite (search_succeeds_forget_soft people2 st meal_name Hn2).
  by rewrite Hsame.
Qed.

Lemma soft_data_never_decide_witness :
  forget_soft <$> [hana; ivan; jack]
  = forget_soft <$> (forget_soft <$> [hana; ivan; jack]) ∧
  2 ≤ length (attendees_of [hana; ivan; jack] "Feast") ∧
  ∃ arr, @search_for_meal insertion_order (forget_soft <$> [hana; ivan; jack])
           planner_start "Feast" = Ok (Some arr).
Proof.
  assert (forget_soft <$> [hana; ivan; jack]
          = forget_soft <$> (forget_soft <$> [hana; ivan; jack])) as Hsame
    by reflexivity.
  assert (2 ≤ length (attendees_of [hana; ivan; jack] "Feast")) as Hn
    by (vm_compute; lia).
  split; [exact Hsame|]. split; [exact Hn|].
  apply (proj1 (@soft_data_never_decide insertion_order [hana; ivan; jack]
                  (forget_soft <$> [hana; ivan; jack]) planner_start "Feast"
                  Hsame Hn)).
  exists [hana; ivan; jack]. vm_compute. reflexivity.
Defined.

(** * The list view *)

Lemma filter_imap_length {A B} (f : nat → A → B) (P : B → Prop)
    `{∀ y, Decision (P y)} (Q : A → Prop) `{∀ x, Decision (Q x)}
    (l : list A) :
  (∀ i x, l !! i = Some x → P (f i x) ↔ Q x) →
  length (filter P (imap f l)) = length (filter Q l).
Proof.
  revert f. induction l as [|x l IH]; intros f Hf; [done|].
  rewrite imap_cons, !filter_cons.
  pose proof (Hf 0 x eq_refl) as Hhead.
  assert (length (filter P (imap (f ∘ S) l)) = length (filter Q l)) as Hl.
  { apply IH. intros i y Hy. apply (Hf (S i) y Hy). }
  repeat case_decide; simpl; rewrite ?Hl; tauto || done.
Qed.

Lemma list_view_marks (pairs_shown : ledger) (cur : list Person) :
  length (filter (λ l, is_same_sex_pair l = true) (list_view pairs_shown cur))
  = same_sex_count (neighbours cur).
Proof.
  unfold list_view, same_sex_count. apply filter_imap_length.
  intros i [a b] _. done.
Qed.

(** X15. In the list view of a table, every pair of neighbours of one sex
    bears the mark (S!), the last and the first person included, but the
    number given in the note leaves that last pair out when the table has
    three or more people, counts the pair of a table for two twice, and is
    zero for a person alone. *)
Theorem note_counts_consecutive_seats_only (pairs_shown : ledger)
    (cur : list Person) :
  length (filter (λ l, is_same_sex_pair l = true) (list_view pairs_shown cur))
  = same_sex_count (neighbours cur) ∧
  (3 ≤ length cur →
   num_same_sex_violations_in_this_plan (length cur) (list_view pairs_shown cur)
   = same_sex_count (links cur)) ∧
  (length cur = 2 →
   num_same_sex_violations_in_this_plan (length cur) (list_view pairs_shown cur)
   = same_sex_count (neighbours cur)) ∧
  (length cur = 1 →
   num_same_sex_violations_in_this_plan (length cur) (list_view pairs_shown cur)
   = 0).
Proof.
  split; [apply list_view_marks|].
  unfold num_same_sex_violations_in_this_plan, list_view, same_sex_count.
  split; [|split].
  - intros Hn. destruct cur as [|a cur]; [simpl in Hn; lia|].
    destruct (last (a :: cur)) as [l|] eqn:Hl; [|by apply last_None in Hl].
    rewrite (neighbours_links _ a l) by done.
    pose proof (length_links (a :: cur)) as Hlk.
    remember (links (a :: cur)) as lk eqn:Elk.
    remember (length (a :: cur)) as n eqn:En.
    rewrite imap_app, filter_app, length_app. simpl.
    rewrite Nat.add_0_r, Hlk.
    rewrite filter_cons_False, filter_nil.
    2:{ unfold counted_in_note. simpl.
        replace (pred n + 1) with n by lia. rewrite Nat.Div0.mod_same.
        rewrite (bool_decide_eq_false_2 (pred n < 0)) by lia.
        rewrite (bool_decide_eq_false_2 (n = 2)) by lia.
        rewrite andb_false_r. done. }
    simpl. rewrite Nat.add_0_r. apply filter_imap_length.
    intros i [x y] Hi. apply lookup_lt_Some in Hi. rewrite Hlk in Hi.
    unfold counted_in_note. simpl.
    rewrite Nat.mod_small by lia.
    rewrite (bool_decide_eq_true_2 (i < i + 1)) by lia. simpl.
    by rewrite andb_true_r.
  - intros Hn. apply filter_imap_length. intros i [x y] _.
    unfold counted_in_note. simpl. rewrite (bool_decide_eq_true_2 _ Hn).
    by rewrite orb_true_r, andb_true_r.
  - intros Hn. destruct cur as [|a [|b cur]]; try done.
    change (neighbours [a]) with [(a, a)]. simpl.
    rewrite filter_cons_False; [done|].
    unfold counted_in_note. simpl. by destruct (same_sex a a).
Qed.

Lemma note_counts_consecutive_seats_only_witness :
  3 ≤ length [carol; dave; erin] ∧
  length (filter (λ l, is_same_sex_pair l = true)
            (list_view ∅ [carol; dave; erin])) = 1 ∧
  num_same_sex_violations_in_this_plan 3 (list_view ∅ [carol; dave; erin]) = 0.
Proof.
  assert (3 ≤ length [carol; dave; erin]) as Hn by (simpl; lia).
  destruct (note_counts_consecutive_seats_only ∅ [carol; dave; erin])
    as (Hmarks & Hthree & _).
  split; [exact Hn|]. split.
  - rewrite Hmarks. reflexivity.
  - change 3 with (length [carol; dave; erin]) at 1.
    rewrite (Hthree Hn). reflexivity.
Defined.

Lemma recorded_plans_disjoint_last `{PySet} (all_people_info : list Person)
    (meal_names_list : list string) (st : planner)
    (meal1 meal2 : string) (arrs1 arrs2 : list (list Person))
    (arr1 arr2 : list Person) (x : string * string) :
  seat_people_run all_people_info meal_names_list = Ok st →
  final_seating_arrangements st !! meal1 = Some arrs1 → arr1 ∈ arrs1 →
  final_seating_arrangements st !! meal2 = Some arrs2 → arr2 ∈ arrs2 →
  meal1 ≠ meal2 → 2 ≤ length arr1 → 2 ≤ length arr2 →
  ¬ (x ∈ pair_names <$> neighbours arr1 ∧ x ∈ pair_names <$> neighbours arr2).
Proof.
  revert st meal1 meal2 arrs1 arrs2 arr1 arr2.
  induction meal_names_list as [|m meals IH] using rev_ind;
    intros st meal1 meal2 arrs1 arrs2 arr1 arr2
      Hrun Hm1 Hin1 Hm2 Hin2 Hne Hl1 Hl2.
  { injection Hrun as <-. simpl in Hm1. by rewrite lookup_empty in Hm1. }
  unfold seat_people_run in Hrun. rewrite seat_meals_app in Hrun.
  apply bind_Ok in Hrun as (st1 & Hst1 & Hlast). simpl in Hlast.
  apply bind_Ok in Hlast as (st2 & Hst2 & [= ->]).
  (* the entry of [m] after the turn: an old plan, or the plan just accepted,
     which shares no pair with the plans recorded before *)
  assert (∀ arrs arr other arrs' arr',
            final_seating_arrangements st !! m = Some arrs → arr ∈ arrs →
            2 ≤ length arr → other ≠ m →
            final_seating_arrangements st1 !! other = Some arrs' → arr' ∈ arrs' →
            2 ≤ length arr' →
            ¬ (x ∈ pair_names <$> neighbours arr
               ∧ x ∈ pair_names <$> neighbours arr')) as Hnew.
  { intros arrs arr other arrs' arr' Hm Hin Hl Hother Hm' Hin' Hl'.
    assert (∀ v, final_seating_arrangements st1 !! m = Some v → arr ∈ v →
                 ¬ (x ∈ pair_names <$> neighbours arr
                    ∧ x ∈ pair_names <$> neighbours arr')) as Hold.
    { intros v Hv Hv' [Hx Hx'].
      apply (IH st1 m other v arrs' arr arr' Hst1 Hv Hv' Hm' Hin'); auto. }
    revert Hst2.
    destruct (seat_meal_cases all_people_info st1 m)
      as [[Hn Ha]|[[Hn [p Ha]]|[[Hn Hs]|[Hn [new Hacc]]]]].
    - rewrite seat_meal_no_one by done. intros [= <-]. simpl in Hm.
      rewrite lookup_insert_eq in Hm. injection Hm as <-.
      by apply elem_of_nil in Hin.
    - rewrite (seat_meal_only_one _ _ _ p) by done. intros [= <-]. simpl in Hm.
      rewrite lookup_insert_eq in Hm. injection Hm as <-.
      apply list_elem_of_singleton in Hin as ->. simpl in Hl. lia.
    - rewrite seat_meal_fails by done. intros [= <-]. simpl in Hm.
      destruct (final_seating_arrangements st1 !! m) as [v|] eqn:Hv.
      + rewrite Hv in Hm. injection Hm as <-. by eapply Hold.
      + rewrite lookup_insert_eq in Hm. injection Hm as <-.
        by apply elem_of_nil in Hin.
    - rewrite (seat_meal_accepts _ _ _ new) by done. intros [= <-]. simpl in Hm.
      rewrite lookup_insert_eq in Hm. injection Hm as <-.
      apply elem_of_app in Hin as [Hin|Hin].
      + destruct (final_seating_arrangements st1 !! m) as [v|] eqn:Hv;
          [by eapply Hold | by apply elem_of_nil in Hin].
      + apply list_elem_of_singleton in Hin as ->. intros [Hx Hx'].
        destruct Hacc as (_ & _ & Hs).
        apply search_for_meal_sound in Hs as [_ _ _ Hfresh _].
        apply list_elem_of_fmap in Hx as (ab & -> & Hab).
        apply (proj1 (Forall_forall _ _) Hfresh ab Hab).
        apply (ledger_is_recorded_pairs _ _ _ _ Hst1). eauto 10. }
  destruct (decide (meal1 = m)) as [->|Hne1], (decide (meal2 = m)) as [->|Hne2].
  - done.
  - rewrite (seat_meal_other all_people_info st1 st m meal2) in Hm2 by done.
    by eapply (Hnew arrs1 arr1 meal2 arrs2 arr2).
  - rewrite (seat_meal_other all_people_info st1 st m meal1) in Hm1 by done.
    intros [Hx1 Hx2].
    by eapply (Hnew arrs2 arr2 meal1 arrs1 arr1).
  - rewrite (seat_meal_other all_people_info st1 st m meal1) in Hm1 by done.
    rewrite (seat_meal_other all_people_info st1 st m meal2) in Hm2 by done.
    by eapply (IH st1 meal1 meal2 arrs1 arrs2).
Qed.

Lemma neighbours_distinct_names (arr : list Person) (ab : Person * Person) :
  2 ≤ length arr → NoDup (name <$> arr) → ab ∈ neighbours arr →
  name ab.1 ≠ name ab.2.
Proof.
  intros Hn Hnd Hab E.
  apply list_elem_of_lookup in Hab as [i Hi].
  pose proof (lookup_lt_Some _ _ _ Hi) as Hlt.
  rewrite length_neighbours in Hlt.
  rewrite neighbours_at in Hi by done. unfold neighbour_at in Hi.
  destruct (arr !! i) as [a|] eqn:Ha; [|done]. simpl in Hi.
  destruct (arr !! ((i + 1) mod length arr)) as [b|] eqn:Hb; [|done].
  simpl in Hi. injection Hi as <-. simpl in E.
  assert (i = (i + 1) mod length arr) as Hidx.
  { apply (proj1 (NoDup_alt _) Hnd _ _ (name a)).
    - by rewrite list_lookup_fmap, Ha.
    - by rewrite list_lookup_fmap, Hb, E. }
  destruct (decide (i + 1 = length arr)) as [Hlast|Hlast].
  - rewrite Hlast, Nat.Div0.mod_same in Hidx. lia.
  - rewrite Nat.mod_small in Hidx by lia. lia.
Qed.

Lemma canonical_pair_distinct (a b : string) :
  a ≠ b → (canonical_pair a b).1 ≠ (canonical_pair a b).2.
Proof.
  intros Hne. destruct (canonical_pair_cases a b) as [-> | ->]; simpl; congruence.
Qed.

Section list_view.
Context `{PySet}.
Variable all_people_info : list Person.
Variable meal_names_list : list string.
Variable st : planner.
Hypothesis Hrun : seat_people_run all_people_info meal_names_list = Ok st.
Hypothesis Hnames : NoDup (name <$> all_people_info).

(** What the pairs shown so far are, [seen] being the meals shown so far. *)
Lemma show_meals_repeated (l : seat_line)
    (items : list (string * list (list Person))) :
  ∀ (pairs_shown : ledger) (seen : list string),
    (∀ x, x ∈ pairs_shown →
          x.1 = x.2 ∨
          ∃ m arrs arr,
            m ∈ seen ∧ final_seating_arrangements st !! m = Some arrs ∧
            arr ∈ arrs ∧ 2 ≤ length arr ∧
            x ∈ pair_names <$> neighbours arr) →
    NoDup (seen ++ items.*1) →
    (∀ item, item ∈ items →
             final_seating_arrangements st !! item.1 = Some item.2) →
    SeatLine l ∈ show_meals pairs_shown items →
    is_repeated_neighbour_from_another_meal l = true →
    dines_alone l.
Proof.
  induction items as [|[m arrs] items IH];
    intros pairs_shown seen Hinv Hnd Hitems Hl Hrep.
  { by apply elem_of_nil in Hl. }
  assert (NoDup ((seen ++ [m]) ++ items.*1)) as Hnd'.
  { by rewrite <- app_assoc. }
  assert (∀ item, item ∈ items →
                  final_seating_arrangements st !! item.1 = Some item.2)
    as Hitems'.
  { intros item Hin. apply Hitems. by right. }
  assert (final_seating_arrangements st !! m = Some arrs) as Hm.
  { apply (Hitems (m, arrs)). by left. }
  assert (∀ x, x ∈ pairs_shown →
               x.1 = x.2 ∨
               ∃ m0 arrs0 arr0,
                 m0 ∈ seen ++ [m] ∧
                 final_seating_arrangements st !! m0 = Some arrs0 ∧
                 arr0 ∈ arrs0 ∧ 2 ≤ length arr0 ∧
                 x ∈ pair_names <$> neighbours arr0) as Hinv'.
  { intros x Hx. destruct (Hinv x Hx) as [?|(m0 & arrs0 & arr0 & Hm0 & Hrest)];
      [by left|].
    right. exists m0, arrs0, arr0. split; [|done]. apply elem_of_app. by left. }
  simpl in Hl. unfold show_meal in Hl. simpl in Hl.
  destruct (last arrs) as [cur|] eqn:Hlast.
  2:{ apply elem_of_app in Hl as [Hl|Hl].
      - repeat (apply elem_of_cons in Hl as [Hl|Hl]; [discriminate|]).
        by apply elem_of_nil in Hl.
      - by apply (IH pairs_shown (seen ++ [m])). }
  assert (cur ∈ arrs) as Hcur.
  { rewrite last_lookup in Hlast. apply list_elem_of_lookup. eauto. }
  case_bool_decide as Hzero.
  { apply elem_of_app in Hl as [Hl|Hl].
    - repeat (apply elem_of_cons in Hl as [Hl|Hl]; [discriminate|]).
      by apply elem_of_nil in Hl.
    - by apply (IH pairs_shown (seen ++ [m])). }
  pose proof (recorded_plan_length _ _ _ _ _ _ Hrun Hm Hcur) as Hperm.
  assert (NoDup (name <$> cur)) as Hcurnames.
  { rewrite Hperm. by apply attendees_names_NoDup. }
  apply elem_of_app in Hl as [Hl|Hl].
  - (* a line of this meal *)
    repeat (apply elem_of_cons in Hl as [Hl|Hl]; [discriminate|]).
    apply elem_of_app in Hl as [Hl|Hl].
    2:{ apply elem_of_app in Hl as [Hl|Hl].
        - unfold legend_note in Hl. case_match;
            [apply list_elem_of_singleton in Hl; discriminate
            |by apply elem_of_nil in Hl].
        - repeat (apply elem_of_cons in Hl as [Hl|Hl]; [discriminate|]).
          by apply elem_of_nil in Hl. }
    apply list_elem_of_fmap in Hl as (l' & [= <-] & Hl).
    unfold list_view in Hl.
    apply elem_of_lookup_imap in Hl as (i & ab & -> & Hab).
    unfold dines_alone. simpl. simpl in Hrep.
    apply bool_decide_eq_true in Hrep.
    pose proof (lookup_lt_Some _ _ _ Hab) as Hi.
    rewrite length_neighbours in Hi.
    destruct (decide (length cur = 1)) as [Hone|Hmore].
    { rewrite Hone in *. replace i with 0 by lia. done. }
    exfalso.
    assert (ab ∈ neighbours cur) as Hab'.
    { apply list_elem_of_lookup. eauto. }
    destruct (Hinv _ Hrep) as [Heq|(m0 & arrs0 & arr0 & Hm0 & HF0 & Hin0 & Hl0 & Hx0)].
    + apply (canonical_pair_distinct (name ab.1) (name ab.2)); [|done].
      apply (neighbours_distinct_names cur); [lia | done | done].
    + apply (recorded_plans_disjoint_last _ _ _ m m0 arrs arrs0 cur arr0
               (pair_of ab.1 ab.2) Hrun Hm Hcur HF0 Hin0); [|lia|done|].
      * intros ->. rewrite <- app_assoc in Hnd'.
        apply NoDup_app in Hnd' as (_ & Hdis & _).
        apply (Hdis m0 Hm0). by left.
      * split; [|done]. apply list_elem_of_fmap. by exists ab.
  - (* a line of a later meal *)
    apply (IH (pairs_shown ∪ list_to_set (pair_names <$> neighbours cur))
              (seen ++ [m])); try done.
    intros x [Hx|Hx]%elem_of_union; [by apply Hinv'|].
    apply elem_of_list_to_set in Hx.
    destruct (decide (length cur = 1)) as [Hone|Hmore].
    + left. destruct cur as [|p [|q cur]]; try done.
      change (neighbours [p]) with [(p, p)] in Hx.
      apply list_elem_of_singleton in Hx as ->.
      unfold pair_names, pair_of, canonical_pair. simpl. by case_match.
    + right. exists m, arrs, cur. split; [apply elem_of_app; right; by left|].
      split; [done|]. split; [done|]. split; [lia | done].
Qed.
End list_view.

(** X16. For the dictionary returned by [seat_people] for people with
    distinct names, the list view puts the mark (N!) of a repeated neighbour
    only on a person who is alone at the table, never on two people of a
    plan. *)
Theorem repeated_mark_only_when_alone `{PySet} (all_people_info : list Person)
    (meal_names_list : list string)
    (plans : gmap string (list (list Person)))
    (items : list (string * list (list Person))) (l : seat_line) :
  seat_people all_people_info meal_names_list = Ok plans →
  NoDup (name <$> all_people_info) →
  NoDup items.*1 →
  (∀ item, item ∈ items → plans !! item.1 = Some item.2) →
  SeatLine l ∈ visualize_seating items →
  is_repeated_neighbour_from_another_meal l = true →
  dines_alone l.
Proof.
  unfold seat_people. intros (st & Hrun & [= <-])%bind_Ok Hnames Hnd Hitems.
  unfold visualize_seating. case_match.
  - intros Hl Hrep. apply elem_of_cons in Hl as [Hl|Hl]; [discriminate|].
    apply (show_meals_repeated all_people_info meal_names_list st Hrun Hnames
             l items ∅ []); done.
  - intros Hl. repeat (apply elem_of_cons in Hl as [Hl|Hl]; [discriminate|]).
    by apply elem_of_nil in Hl.
Qed.

Lemma repeated_mark_only_when_alone_witness :
  @seat_people insertion_order [kim] ["Dawn"%string; "Dusk"%string]
  = Ok {[ "Dawn"%string := [[kim]]; "Dusk"%string := [[kim]] ]} ∧
  SeatLine (mkSeatLine 0 kim false true false true " (N!) (S!)" 0 kim)
    ∈ visualize_seating [("Dawn"%string, [[kim]]); ("Dusk"%string, [[kim]])] ∧
  dines_alone (mkSeatLine 0 kim false true false true " (N!) (S!)" 0 kim).
Proof.
  assert (@seat_people insertion_order [kim] ["Dawn"%string; "Dusk"%string]
          = Ok {[ "Dawn"%string := [[kim]]; "Dusk"%string := [[kim]] ]})
    as Hrun by (vm_compute; reflexivity).
  assert (SeatLine (mkSeatLine 0 kim false true false true " (N!) (S!)" 0 kim)
            ∈ visualize_seating
                [("Dawn"%string, [[kim]]); ("Dusk"%string, [[kim]])]) as Hl.
  { apply (bool_decide_unpack _). vm_compute. exact I. }
  split; [exact Hrun|]. split; [exact Hl|].
  apply (@repeated_mark_only_when_alone insertion_order [kim]
           ["Dawn"%string; "Dusk"%string] _
           [("Dawn"%string, [[kim]]); ("Dusk"%string, [[kim]])] _ Hrun).
  - apply (bool_decide_unpack (NoDup (name <$> [kim]))). vm_compute. exact I.
  - apply (bool_decide_unpack
             (NoDup [("Dawn"%string, [[kim]]); ("Dusk"%string, [[kim]])].*1)).
    vm_compute. exact I.
  - intros item Hin.
    apply elem_of_cons in Hin as [->|Hin]; [vm_compute; reflexivity|].
    apply elem_of_cons in Hin as [->|Hin]; [vm_compute; reflexivity|].
    by apply elem_of_nil in Hin.
  - exact Hl.
  - reflexivity.
Defined.

(** X17. In the dictionary returned by [seat_people], two plans of two or
    more people recorded for different meals have no pair of neighbours in
    common. *)
Theorem recorded_plans_share_no_pair `{PySet} (all_people_info : list Person)
    (meal_names_list : list string)
    (plans : gmap string (list (list Person)))
    (meal1 meal2 : string) (arrs1 arrs2 : list (list Person))
    (arr1 arr2 : list Person) (x : string * string) :
  seat_people all_people_info meal_names_list = Ok plans →
  plans !! meal1 = Some arrs1 → arr1 ∈ arrs1 →
  plans !! meal2 = Some arrs2 → arr2 ∈ arrs2 →
  meal1 ≠ meal2 → 2 ≤ length arr1 → 2 ≤ length arr2 →
  x ∈ pair_names <$> neighbours arr1 →
  x ∉ pair_names <$> neighbours arr2.
Proof.
  unfold seat_people. intros (st & Hrun & [= <-])%bind_Ok.
  intros Hm1 Hin1 Hm2 Hin2 Hne Hl1 Hl2 Hx1 Hx2.
  by apply (recorded_plans_disjoint_last _ _ _ meal1 meal2 arrs1 arrs2
              arr1 arr2 x Hrun Hm1 Hin1 Hm2 Hin2).
Qed.

Lemma recorded_plans_share_no_pair_witness :
  @seat_people insertion_order guests ["Lunch"%string; "Dinner"%string]
  = Ok {[ "Lunch"%string := [[alice; bob]];
          "Dinner"%string := [[alice; dave]] ]} ∧
  ("Alice"%string, "Bob"%string) ∉ pair_names <$> neighbours [alice; dave].
Proof.
  assert (@seat_people insertion_order guests ["Lunch"%string; "Dinner"%string]
          = Ok {[ "Lunch"%string := [[alice; bob]];
                  "Dinner"%string := [[alice; dave]] ]}) as Hrun
    by (vm_compute; reflexivity).
  split; [exact Hrun|].
  apply (@recorded_plans_share_no_pair insertion_order guests
           ["Lunch"%string; "Dinner"%string] _ "Lunch" "Dinner"
           [[alice; bob]] [[alice; dave]] [alice; bob] [alice; dave]
           ("Alice"%string, "Bob"%string) Hrun).
  - vm_compute. reflexivity.
  - apply elem_of_cons. left. reflexivity.
  - vm_compute. reflexivity.
  - apply elem_of_cons. left. reflexivity.
  - discriminate.
  - simpl. lia.
  - simpl. lia.
  - apply elem_of_cons. left. reflexivity.
Defined.
